(** * Domain coloring: winding numbers, zero localisation, zoom and branch cuts

    A shallow embedding of [domain_coloring.py] and the properties of its
    winding-number estimator, recursive zero finder, zoom heuristic and
    branch-cut detector.

    Numbers.  Grid indices are Python integers and are modelled by [Z].
    Hue, brightness, ranges and steps are Python floats; they are modelled by
    exact rationals [Q]: comparisons and the four field operations are the
    exact ones, decimal literals such as [0.7] are read as the decimals they
    denote, and rounding, infinities and NaN are outside the model: the
    [ValueError] of [int(round(...))] on a NaN sum and the end of the
    [while] loop of [_brightness] on a NaN sample have no counterpart here.
    Equality of computed numbers is therefore [Qeq] ([==]).

    Arrays.  A two-dimensional numpy array is a list of rows.  Indexing
    follows Python: a negative index counts from the end and an index outside
    [-len, len) raises [IndexError].

    Effects.  Exceptions are explicit outcomes.  The set [zero_index] that
    [_calc_zeros] mutates in place is threaded as state and survives an
    exception, as the Python object does; next to it the state keeps a ghost
    record of the rectangles handed to [winding_num].  The recursion of
    [_calc_zeros] and the [while] loop of [_brightness] take a budget that
    is computed from their arguments and shown never to run out.

    Not embedded: [func_grid] and [colors], which evaluate numpy's complex
    functions ([np.arange], [np.angle], [np.arctan], [%]) in binary64, and
    the rendering functions [_grid_lines] and [domain_coloring]. *)

From Stdlib Require Import ZArith QArith Qround Qabs Lia Lqa Bool List.
From stdpp Require Import base list gmap sets.
Import ListNotations.

Local Open Scope Z_scope.

(** ** Python values *)

Inductive exn : Set :=
| IndexError
| ZeroDivisionError
| OverflowError.

(** Outcome of running a piece of code: a value, a raised exception, or the
    recursion budget of the model running out. *)
Inductive outcome (A : Type) : Type :=
| Ret (a : A)
| Raise (e : exn)
| OutOfFuel.

Arguments Ret {A} a.
Arguments Raise {A} e.
Arguments OutOfFuel {A}.

Definition obind {A B} (m : outcome A) (k : A -> outcome B) : outcome B :=
  match m with
  | Ret a => k a
  | Raise e => Raise e
  | OutOfFuel => OutOfFuel
  end.

Notation "x <-? m ; k" := (obind m (fun x => k))
  (at level 100, m at next level, right associativity).

(** Strict comparisons of floats, as booleans. *)
Definition Qltb (a b : Q) : bool := negb (Qle_bool b a).
Definition Qgtb (a b : Q) : bool := Qltb b a.

(** Python sequence indexing [l[i]]. *)
Definition py_index {A} (l : list A) (i : Z) : outcome A :=
  let n := Z.of_nat (length l) in
  let j := if 0 <=? i then i else n + i in
  if (0 <=? j) && (j <? n) then
    match l !! Z.to_nat j with
    | Some a => Ret a
    | None => Raise IndexError
    end
  else Raise IndexError.

Abbreviation grid := (list (list Q)).

(** [a[y][x]] on a two-dimensional array. *)
Definition getitem2 (a : grid) (y x : Z) : outcome Q :=
  row <-? py_index a y; py_index row x.

(** [a.shape] for a two-dimensional array: (rows, columns). *)
Definition shape (a : grid) : Z * Z :=
  (Z.of_nat (length a), Z.of_nat (length (hd [] a))).

(** Every row has the width reported by [shape]. *)
Definition rectangular (a : grid) : Prop :=
  Forall (fun row => length row = length (hd [] a)) a.

(** ** The winding number *)

Definition lim1_w : Q := 0.7.
Definition lim2_w : Q := 0.3.

(** [_winding_path(val1, val2)] *)
Definition _winding_path (val1 val2 : Q) : Q :=
  let winding := 0%Q in
  if Qgtb val2 lim1_w then
    if Qltb val1 lim2_w then (winding + (1 + val1 - val2))%Q
    else (winding + (val1 - val2))%Q
  else if Qltb val2 lim2_w then
    if Qgtb val1 lim1_w then (winding + (- (1) + val1 - val2))%Q
    else (winding + (val1 - val2))%Q
  else (winding + (val1 - val2))%Q.

(** Python's [round] on a float: to the nearest integer, ties to even. *)
Definition py_round (w : Q) : Z :=
  let f := Qfloor w in
  let d := (w - inject_Z f)%Q in
  if Qltb d (1 # 2) then f
  else if Qltb (1 # 2) d then f + 1
  else if Z.even f then f else f + 1.

(** [range(a, b)] *)
Definition zrange (a b : Z) : list Z := seqZ a (b - a).

(** A [for] loop that updates an accumulator and may raise. *)
Fixpoint for_acc {S} (l : list Z) (body : Z -> S -> outcome S) (acc : S)
  : outcome S :=
  match l with
  | [] => Ret acc
  | i :: l' => acc' <-? body i acc; for_acc l' body acc'
  end.

Abbreviation point := (Z * Z)%type.
Abbreviation rect := ((Z * Z) * (Z * Z))%type.

(** Corner normalisation, as done by [winding_num] and [zeros]. *)
Definition normalize (r : rect) : rect :=
  let '((x1, y1), (x2, y2)) := r in
  let '(x1, x2) := if x2 <? x1 then (x2, x1) else (x1, x2) in
  let '(y1, y2) := if y2 <? y1 then (y2, y1) else (y1, y2) in
  ((x1, y1), (x2, y2)).

(** One step of the horizontal loop of [winding_num]: bottom edge left to
    right, top edge right to left. *)
Definition winding_row (hue : grid) (y1 y2 : Z) (i : Z) (winding : Q)
  : outcome Q :=
  a <-? getitem2 hue y2 (i + 1);
  b <-? getitem2 hue y2 i;
  let winding := (winding + _winding_path a b)%Q in
  c <-? getitem2 hue y1 i;
  d <-? getitem2 hue y1 (i + 1);
  Ret (winding + _winding_path c d)%Q.

(** One step of the vertical loop of [winding_num]: right edge upwards, left
    edge downwards. *)
Definition winding_col (hue : grid) (x1 x2 : Z) (j : Z) (winding : Q)
  : outcome Q :=
  a <-? getitem2 hue j x2;
  b <-? getitem2 hue (j + 1) x2;
  let winding := (winding + _winding_path a b)%Q in
  c <-? getitem2 hue (j + 1) x1;
  d <-? getitem2 hue j x1;
  Ret (winding + _winding_path c d)%Q.

(** [winding_num(hue, rect)] *)
Definition winding_num (hue : grid) (r : rect) : outcome Z :=
  let '((x1, y1), (x2, y2)) := normalize r in
  winding <-? for_acc (zrange x1 x2) (winding_row hue y1 y2) 0%Q;
  winding <-? for_acc (zrange y1 y2) (winding_col hue x1 x2) winding;
  Ret (py_round winding).

(** ** Zero localisation *)

(** The mutable set [zero_index], together with a ghost record of the
    rectangles on which [winding_num] has been invoked. *)
Record cz_state : Type := mk_cz_state {
  zero_index : gset point;
  winding_calls : list rect
}.

Definition M (A : Type) : Type := cz_state -> outcome A * cz_state.

Definition mret {A} (a : A) : M A := fun s => (Ret a, s).

Definition mbind {A B} (m : M A) (k : A -> M B) : M B :=
  fun s =>
    match m s with
    | (Ret a, s') => k a s'
    | (Raise e, s') => (Raise e, s')
    | (OutOfFuel, s') => (OutOfFuel, s')
    end.

Notation "x <-! m ; k" := (mbind m (fun x => k))
  (at level 100, m at next level, right associativity).
Notation "m ;! k" := (mbind m (fun _ => k))
  (at level 100, right associativity).

Definition lift {A} (o : outcome A) : M A := fun s => (o, s).

(** [zero_index.add(p)] *)
Definition add (p : point) : M unit :=
  fun s => (Ret tt, mk_cz_state ({[p]} ∪ zero_index s) (winding_calls s)).

(** [winding_num(hue, rect)] as called from [_calc_zeros]; the call is
    recorded before it runs. *)
Definition call_winding_num (hue : grid) (r : rect) : M Z :=
  fun s =>
    (winding_num hue r, mk_cz_state (zero_index s) (winding_calls s ++ [r])).

Fixpoint for_each (l : list Z) (body : Z -> M unit) : M unit :=
  match l with
  | [] => mret tt
  | i :: l' => body i ;! for_each l' body
  end.

(** [if value[y][x] < tol: zero_index.add((x, y))] *)
Definition check_point (value : grid) (tol : Q) (x y : Z) : M unit :=
  v <-! lift (getitem2 value y x);
  if Qltb v tol then add (x, y) else mret tt.

(** [int(np.ceil((a + b) / 2))] *)
Definition ceil_half (a b : Z) : Z := Qceiling (inject_Z (a + b) / 2).

(** [_calc_zeros(hue, value, rect, zero_index, tol)]; [fuel] bounds the depth
    of the recursion. *)
Fixpoint _calc_zeros (fuel : nat) (hue value : grid) (r : rect) (tol : Q)
  : M unit :=
  match fuel with
  | O => lift OutOfFuel
  | S fuel' =>
    let '((x1, y1), (x2, y2)) := r in
    if (y2 - y1 <=? 3) && (x2 - x1 <=? 3) then
      for_each (zrange x1 x2) (fun i =>
        for_each (zrange y1 y2) (fun j => check_point value tol i j))
    else
      w <-! call_winding_num hue r;
      if w =? 0 then
        for_each (zrange x1 x2) (fun i =>
          check_point value tol i y1 ;! check_point value tol i y2) ;!
        for_each (zrange y1 y2) (fun j =>
          check_point value tol x1 j ;! check_point value tol x2 j)
      else if y2 - y1 <? x2 - x1 then
        _calc_zeros fuel' hue value ((x1, y1), (ceil_half x2 x1, y2)) tol ;!
        _calc_zeros fuel' hue value ((ceil_half x2 x1, y1), (x2, y2)) tol
      else
        _calc_zeros fuel' hue value ((x1, y1), (x2, ceil_half y2 y1)) tol ;!
        _calc_zeros fuel' hue value ((x1, ceil_half y1 y2), (x2, y2)) tol
  end.

(** Size of a rectangle; every bisection lowers it. *)
Definition rect_measure (r : rect) : nat :=
  let '((x1, y1), (x2, y2)) := r in
  Z.to_nat (Z.max 0 (x2 - x1) + Z.max 0 (y2 - y1)).

(** Recursion depth that [_calc_zeros] cannot exceed on [r]. *)
Definition calc_fuel (r : rect) : nat := S (rect_measure r).

(** Python complex numbers. *)
Record complex : Type := mk_complex { re : Q; im : Q }.

Definition Cadd (a b : complex) : complex :=
  mk_complex (re a + re b) (im a + im b).
Definition Cmul (a b : complex) : complex :=
  mk_complex (re a * re b - im a * im b) (re a * im b + im a * re b).
Definition of_float (x : Q) : complex := mk_complex x 0.
Definition imag_unit : complex := mk_complex 0 1.

Definition empty_state : cz_state := mk_cz_state ∅ [].

(** The starting rectangle of [zeros]: the whole array by default, else the
    given rectangle with its corners put in order. *)
Definition start_rect (hue : grid) (r : option rect) : rect :=
  let '(row, col) := shape hue in
  match r with
  | None => ((0, 0), (col - 1, row - 1))
  | Some r => normalize r
  end.

(** The first half of [zeros]: the recursive search from the starting
    rectangle, run on a fresh set. *)
Definition zeros_search (hue value : grid) (r : option rect) (tol : Q)
  : outcome unit * cz_state :=
  let r := start_rect hue r in
  _calc_zeros (calc_fuel r) hue value r tol empty_state.

(** The complex number of one grid index. *)
Definition index_to_complex (re_range im_range : Q * Q) (step : Q)
  (index : point) : complex :=
  let '(col, row) := index in
  let re := (fst re_range + inject_Z col * step)%Q in
  let im := (fst im_range + inject_Z row * step)%Q in
  Cadd (of_float re) (Cmul (of_float im) imag_unit).

(** [zeros(hue, value, re_range, im_range, rect, tol)].  Both outputs
    enumerate the same unmodified set, hence in the same order. *)
Definition zeros (hue value : grid) (re_range im_range : Q * Q)
  (r : option rect) (tol : Q) : outcome (list complex * list point) :=
  let '(row, col) := shape hue in
  match zeros_search hue value r tol with
  | (Ret _, s) =>
    if row - 1 =? 0 then Raise ZeroDivisionError
    else
      let step := ((snd re_range - fst re_range) / inject_Z (row - 1))%Q in
      let index_list := elements (zero_index s) in
      Ret (map (index_to_complex re_range im_range step) index_list,
           index_list)
  | (Raise e, _) => Raise e
  | (OutOfFuel, _) => OutOfFuel
  end.

(** ** Zooming onto the zeros *)

(** One move of the probe in [_brightness]. *)
Definition probe_move (x_val max_val : bool) (x y : Z) : Z * Z :=
  if max_val then
    if x_val then (x + 1, y) else (x, y + 1)
  else
    if x_val then (x - 1, y) else (x, y - 1).

(** The [while] loop of [_brightness]. *)
Fixpoint _brightness_loop (fuel : nat) (value : grid) (x y : Z)
  (light_val : Q) (x_val max_val : bool) (diff : Z) (light : Q)
  : outcome Z :=
  if Qltb light light_val then
    match fuel with
    | O => OutOfFuel
    | S fuel' =>
      light <-? getitem2 value y x;
      let '(x, y) := probe_move x_val max_val x y in
      let diff := diff + 1 in
      if (x <? 0) || (y <? 0) then Raise IndexError
      else _brightness_loop fuel' value x y light_val x_val max_val diff light
    end
  else Ret diff.

(** Width of row [value[y]], zero when there is no such row. *)
Definition row_width (value : grid) (y : Z) : Z :=
  match py_index value y with
  | Ret row => Z.of_nat (length row)
  | _ => 0
  end.

(** Number of iterations the loop of [_brightness] cannot exceed. *)
Definition brightness_fuel (value : grid) (x y : Z) (x_val max_val : bool)
  : nat :=
  S (Z.to_nat
       (if max_val then
          if x_val then row_width value y - x
          else Z.of_nat (length value) - y
        else
          if x_val then x else y)).

(** [_brightness(value, x, y, light_val, x_val, max_val)]: [None] when the
    probe leaves the array. *)
Definition _brightness (value : grid) (x y : Z) (light_val : Q)
  (x_val max_val : bool) : outcome (option Z) :=
  match _brightness_loop (brightness_fuel value x y x_val max_val)
          value x y light_val x_val max_val 0 0%Q with
  | Ret diff => Ret (Some diff)
  | Raise IndexError => Ret None
  | Raise e => Raise e
  | OutOfFuel => OutOfFuel
  end.

(** Bounding box [(x_max, x_min, y_max, y_min)]. *)
Abbreviation bbox := (Z * Z * Z * Z)%type.

(** Body of [for y, x in zero_index[1:]]. *)
Definition bbox_step (b : bbox) (p : point) : bbox :=
  let '(x_max, x_min, y_max, y_min) := b in
  let '(y, x) := p in
  let '(x_max, x_min) :=
    if x_max <? x then (x, x_min)
    else if x <? x_min then (x_max, x)
    else (x_max, x_min) in
  let '(y_max, y_min) :=
    if y_max <? y then (y, y_min)
    else if y <? y_min then (y_max, y)
    else (y_max, y_min) in
  (x_max, x_min, y_max, y_min).

Definition bounding_box (p0 : point) (rest : list point) : bbox :=
  fold_left bbox_step rest (fst p0, fst p0, snd p0, snd p0).

Abbreviation triple := ((Q * Q) * (Q * Q) * Q)%type.

(** Python's [/] on floats. *)
Definition py_div (a b : Q) : outcome Q :=
  if Qeq_bool b 0 then Raise ZeroDivisionError else Ret (a / b)%Q.

(** The last part of [zoom_fit_zero], once the four differences are known. *)
Definition zoom_bounds (value : grid) (b : bbox)
  (diff_x_min diff_y_min diff_x_max diff_y_max : Z)
  (re_range im_range : Q * Q) (step : Q) : outcome triple :=
  let '(x_max, x_min, y_max, y_min) := b in
  num_re_step <-? py_div (snd re_range - fst re_range) step;
  let '(row, col) := shape value in
  let lower_bound_re :=
    (fst re_range + inject_Z (x_min - diff_x_min + 1) * step)%Q in
  let upper_bound_re :=
    (snd re_range - inject_Z (col - x_max - diff_x_max) * step)%Q in
  let lower_bound_im :=
    (fst im_range + inject_Z (y_min - diff_y_min + 1) * step)%Q in
  let upper_bound_im :=
    (snd im_range - inject_Z (row - y_max - diff_y_max) * step)%Q in
  let new_re_range := (lower_bound_re, upper_bound_re) in
  let new_im_range := (lower_bound_im, upper_bound_im) in
  new_step <-? py_div (upper_bound_re - lower_bound_re) num_re_step;
  Ret (new_re_range, new_im_range, new_step).

(** The four probes of [zoom_fit_zero], in the order of the source. *)
Definition zoom_probes (value : grid) (b : bbox) (light_val : Q)
  : outcome (option Z * option Z * option Z * option Z) :=
  let '(x_max, x_min, y_max, y_min) := b in
  diff_x_min <-? _brightness value x_min y_min light_val true false;
  diff_y_min <-? _brightness value x_max y_min light_val false false;
  diff_x_max <-? _brightness value x_max y_max light_val true true;
  diff_y_max <-? _brightness value x_min y_max light_val false true;
  Ret (diff_x_min, diff_y_min, diff_x_max, diff_y_max).

(** [zoom_fit_zero(zero_index, value, re_range, im_range, step, light_val)] *)
Definition zoom_fit_zero (zero_index : list point) (value : grid)
  (re_range im_range : Q * Q) (step : Q) (light_val : Q) : outcome triple :=
  match zero_index with
  | [] => Ret (re_range, im_range, step)
  | p0 :: rest =>
    let b := bounding_box p0 rest in
    diffs <-? zoom_probes value b light_val;
    match diffs with
    | (Some diff_x_min, Some diff_y_min, Some diff_x_max, Some diff_y_max) =>
      zoom_bounds value b diff_x_min diff_y_min diff_x_max diff_y_max
        re_range im_range step
    | _ => Ret (re_range, im_range, step)
    end
  end.

(** ** Branch cuts *)

Definition branch_lim : Q := 0.4.
Definition deviation : Z := 2.
Definition lim1_b : Q := 0.9.
Definition lim2_b : Q := 0.1.
Definition tol_b : Q := 0.2.

(** A [for] loop whose body may [return True]. *)
Fixpoint any_index (l : list Z) (test : Z -> outcome bool) : outcome bool :=
  match l with
  | [] => Ret false
  | i :: l' => b <-? test i; if b then Ret true else any_index l' test
  end.

(** [a > lim1 and b < lim2], the second sample read only when needed. *)
Definition wrap_con (hue : grid) (p q : point) : outcome bool :=
  a <-? getitem2 hue (fst p) (snd p);
  if Qgtb a lim1_b then
    b <-? getitem2 hue (fst q) (snd q); Ret (Qltb b lim2_b)
  else Ret false.

(** Body of the two loops of [branch_cut] on the samples at [p] and [q],
    both given as (row, column); [true] stands for [return True]. *)
Definition cut_at (hue value : grid) (p q : point) : outcome bool :=
  first_con <-? wrap_con hue p q;
  second_con <-? wrap_con hue q p;
  if negb (first_con || second_con) then
    v1 <-? getitem2 value (fst p) (snd p);
    if Qgtb v1 tol_b then
      v2 <-? getitem2 value (fst q) (snd q);
      if Qgtb v2 tol_b then
        h1 <-? getitem2 hue (fst p) (snd p);
        h2 <-? getitem2 hue (fst q) (snd q);
        Ret (Qgtb (Qabs (h1 - h2)) branch_lim)
      else Ret false
    else Ret false
  else Ret false.

(** [np.ceil(np.abs(lo) / step)] for [lo < 0]: numpy divides by zero to
    infinity, which [int] then refuses.  For a step that is not zero the
    quotient is the exact one; the binary64 quotient of the source can round
    across an integer and then gives the next index, so the properties
    below use this function at a zero step only. *)
Definition axis_index (lo step : Q) : outcome Z :=
  if Qeq_bool step 0 then Raise OverflowError
  else Ret (Qceiling (Qabs lo / step)).

(** [branch_cut(hue, value, re_range, im_range, step)] *)
Definition branch_cut (hue value : grid) (re_range im_range : Q * Q)
  (step : Q) : outcome bool :=
  let '(row, col) := shape hue in
  let re_axis_in := Qltb (fst im_range) 0 && Qltb 0 (snd im_range) in
  let im_axis_in := Qltb (fst re_range) 0 && Qltb 0 (snd re_range) in
  if negb (re_axis_in || im_axis_in) then Ret false
  else
    found <-?
      (if re_axis_in then
         c <-? axis_index (fst im_range) step;
         let y_zero1 := c - deviation in
         let y_zero2 := c + deviation in
         any_index (zrange 0 col)
           (fun i => cut_at hue value (y_zero1, i) (y_zero2, i))
       else Ret false);
    if found then Ret true
    else
      found <-?
        (if im_axis_in then
           c <-? axis_index (fst re_range) step;
           let x_zero1 := c - deviation in
           let x_zero2 := c + deviation in
           any_index (zrange 0 row)
             (fun j => cut_at hue value (j, x_zero1) (j, x_zero2))
         else Ret false);
      if found then Ret true else Ret false.

(** * Vocabulary of the statements *)

(** [m] keeps the state invariant [I], whatever its outcome. *)
Definition preserves {A} (I : cz_state -> Prop) (m : M A) : Prop :=
  forall s, I s -> I (snd (m s)).

(** [m] returns normally from every state. *)
Definition returns {A} (m : M A) : Prop :=
  forall s, exists a s', m s = (Ret a, s').

(** [m] never exhausts the recursion budget. *)
Definition terminates {A} (m : M A) : Prop :=
  forall s, fst (m s) <> OutOfFuel.

(** A rectangle with ordered corners that lies inside an array of the given
    shape. *)
Definition in_grid (sh : Z * Z) (r : rect) : Prop :=
  let '((x1, y1), (x2, y2)) := r in
  0 <= x1 <= x2 /\ x2 < snd sh /\ 0 <= y1 <= y2 /\ y2 < fst sh.

(** The points whose brightness [_calc_zeros] may read at rectangle [r]
    itself: the half-open scan of the base case and the edge scan. *)
Definition touched (r : rect) (x y : Z) : Prop :=
  let '((x1, y1), (x2, y2)) := r in
  (x1 <= x < x2 /\ y1 <= y < y2) \/
  (x1 <= x < x2 /\ (y = y1 \/ y = y2)) \/
  (y1 <= y < y2 /\ (x = x1 \/ x = x2)).

(** [R] holds of both halves of every rectangle it holds of. *)
Definition split_closed (R : rect -> Prop) : Prop :=
  forall x1 y1 x2 y2,
    R ((x1, y1), (x2, y2)) ->
    (y2 - y1 <=? 3) && (x2 - x1 <=? 3) = false ->
    (y2 - y1 < x2 - x1 ->
       R ((x1, y1), (ceil_half x2 x1, y2)) /\
       R ((ceil_half x2 x1, y1), (x2, y2))) /\
    (x2 - x1 <= y2 - y1 ->
       R ((x1, y1), (x2, ceil_half y2 y1)) /\
       R ((x1, ceil_half y1 y2), (x2, y2))).

(** Inputs on which [zeros] runs without raising: two arrays of one shape
    with at least two rows, and a starting rectangle inside them. *)
Definition search_in_range (hue value : grid) (r : option rect) : Prop :=
  rectangular hue /\ rectangular value /\ shape value = shape hue /\
  2 <= fst (shape hue) /\ in_grid (shape hue) (start_rect hue r).

(** The smallest axis-parallel box around the two corners of [r]. *)
Definition inside_box (r : rect) (p : point) : Prop :=
  let '((x1, y1), (x2, y2)) := r in
  Z.min x1 x2 <= fst p <= Z.max x1 x2 /\
  Z.min y1 y2 <= snd p <= Z.max y1 y2.

(** What every recorded index satisfies: it lies in the box of [root] and
    its brightness was read and found below [tol]. *)
Definition below_tol_in (value : grid) (tol : Q) (root : rect) (p : point)
  : Prop :=
  inside_box root p /\
  exists v, getitem2 value (snd p) (fst p) = Ret v /\ (v < tol)%Q.

(** A rectangle with span at least 1 along both axes. *)
Definition wide (r : rect) : Prop :=
  let '((x1, y1), (x2, y2)) := r in 1 <= x2 - x1 /\ 1 <= y2 - y1.

(** [m] returns normally, leaves the record of calls alone and adds to
    [zero_index] exactly the points of [F]. *)
Definition adds (m : M unit) (F : point -> Prop) : Prop :=
  forall s, exists s',
    m s = (Ret tt, s') /\
    winding_calls s' = winding_calls s /\
    forall p, p ∈ zero_index s' <-> p ∈ zero_index s \/ F p.

(** The step that [zeros] uses on both axes. *)
Definition zeros_step (hue : grid) (re_range : Q * Q) : Q :=
  ((snd re_range - fst re_range) / inject_Z (fst (shape hue) - 1))%Q.

(** Distance that the probe can still travel. *)
Definition probe_room (value : grid) (x_val max_val : bool) (x y : Z) : Z :=
  if max_val then
    if x_val then row_width value y - x
    else Z.of_nat (length value) - y
  else
    if x_val then x else y.

(** Where a probe that made [k] moves from [(x, y)] may have got to. *)
Definition walk_ok (value : grid) (x_val max_val : bool) (x y k : Z) : Prop :=
  if max_val then
    if x_val then x + k <= row_width value y
    else y + k <= Z.of_nat (length value)
  else
    if x_val then 0 <= x - k else 0 <= y - k.

(** One of the four probes around the bounding box leaves the array before
    the threshold is reached. *)
Definition some_walk_fails (value : grid) (b : bbox) (light_val : Q) : Prop :=
  let '(x_max, x_min, y_max, y_min) := b in
  _brightness value x_min y_min light_val true false = Ret None \/
  _brightness value x_max y_min light_val false false = Ret None \/
  _brightness value x_max y_max light_val true true = Ret None \/
  _brightness value x_min y_max light_val false true = Ret None.

(** Position of the probe after [k] moves from [(x, y)]. *)
Definition walk_pos (x_val max_val : bool) (x y k : Z) : Z * Z :=
  if max_val then
    if x_val then (x + k, y) else (x, y + k)
  else
    if x_val then (x - k, y) else (x, y - k).

(** The sample that the probe reads after [k] moves. *)
Definition sample_at (value : grid) (x_val max_val : bool) (x y k : Z)
  : outcome Q :=
  getitem2 value (snd (walk_pos x_val max_val x y k))
    (fst (walk_pos x_val max_val x y k)).

(** Following the spec's words: walking outward from [(x, y)] one grid
    step at a time, the probe meets a sample of the array, at non-negative
    indices, whose brightness reaches [light_val]. *)
Definition reaches (value : grid) (x_val max_val : bool) (x y : Z)
  (light_val : Q) : Prop :=
  exists k v,
    0 <= k /\
    0 <= fst (walk_pos x_val max_val x y k) /\
    0 <= snd (walk_pos x_val max_val x y k) /\
    sample_at value x_val max_val x y k = Ret v /\ (light_val <= v)%Q.

(** Following the spec's words: one of the four walks, started inside the
    array, runs off the grid before the threshold is reached. *)
Definition some_walk_runs_off (value : grid) (b : bbox) (light_val : Q)
  : Prop :=
  let '(x_max, x_min, y_max, y_min) := b in
  (0 <= x_min /\ 0 <= y_min /\ ~ reaches value true false x_min y_min light_val) \/
  (0 <= x_max /\ 0 <= y_min /\ ~ reaches value false false x_max y_min light_val) \/
  (0 <= x_max /\ 0 <= y_max /\ ~ reaches value true true x_max y_max light_val) \/
  (0 <= x_min /\ 0 <= y_max /\ ~ reaches value false true x_min y_max light_val).

(** ** Vocabulary of the further properties *)

(** The whole turn that [_winding_path] adds to the plain difference
    [val1 - val2].  In every call of [winding_num] the walk goes from the
    sample [val2] to the sample [val1]: the turn is [+1] when the walk
    leaves a hue above 0.7 and arrives at a hue below 0.3 (the hue grows
    through the end of the colour circle: a forward wrap), and [-1] when it
    leaves a hue below 0.3 and arrives at a hue above 0.7 (a backward
    wrap). *)
Definition wrap_count (val1 val2 : Q) : Z :=
  if Qgtb val2 lim1_w && Qltb val1 lim2_w then 1
  else if Qltb val2 lim2_w && Qgtb val1 lim1_w then -1
  else 0.

(** The hue sample at row [y], column [x]; 0 where there is none. *)
Definition hue_at (hue : grid) (y x : Z) : Q :=
  match getitem2 hue y x with
  | Ret v => v
  | _ => 0%Q
  end.

(** Sum of an integer-valued function over a range. *)
Definition sum_over (l : list Z) (f : Z -> Z) : Z :=
  fold_right (fun i acc => f i + acc) 0 l.

(** Wraps of the two pairs that one step of the horizontal loop of
    [winding_num] walks, and of the vertical loop. *)
Definition row_wraps (hue : grid) (y1 y2 i : Z) : Z :=
  wrap_count (hue_at hue y2 (i + 1)) (hue_at hue y2 i)
  + wrap_count (hue_at hue y1 i) (hue_at hue y1 (i + 1)).

Definition col_wraps (hue : grid) (x1 x2 j : Z) : Z :=
  wrap_count (hue_at hue j x2) (hue_at hue (j + 1) x2)
  + wrap_count (hue_at hue (j + 1) x1) (hue_at hue j x1).

(** Forward wraps minus backward wraps over the pairs that [winding_num]
    walks around the rectangle with ordered corners [r]. *)
Definition boundary_wraps (hue : grid) (r : rect) : Z :=
  let '((x1, y1), (x2, y2)) := r in
  sum_over (zrange x1 x2) (row_wraps hue y1 y2)
  + sum_over (zrange y1 y2) (col_wraps hue x1 x2).

(** [m] can raise nothing but [IndexError]. *)
Definition raises_only_IndexError {A} (m : M A) : Prop :=
  forall s e, fst (m s) = Raise e -> e = IndexError.

(** [m] only adds to the set and only appends to the record of calls. *)
Definition only_grows {A} (m : M A) : Prop :=
  forall s,
    zero_index s ⊆ zero_index (snd (m s)) /\
    exists calls, winding_calls (snd (m s)) = winding_calls s ++ calls.

(** The points that the edge scan of [_calc_zeros] reads on rectangle [r]:
    both horizontal edges without their right end, both vertical edges
    without their lower end. *)
Definition edge_scanned (r : rect) (p : point) : Prop :=
  let '((x1, y1), (x2, y2)) := r in
  (x1 <= fst p < x2 /\ (snd p = y1 \/ snd p = y2)) \/
  (y1 <= snd p < y2 /\ (fst p = x1 \/ fst p = x2)).

(** A 5 x 5 array of constant hue, and a 5 x 5 brightness array that is
    dark in its four corners only. *)
Definition flat5 : grid :=
  [[0.5; 0.5; 0.5; 0.5; 0.5];
   [0.5; 0.5; 0.5; 0.5; 0.5];
   [0.5; 0.5; 0.5; 0.5; 0.5];
   [0.5; 0.5; 0.5; 0.5; 0.5];
   [0.5; 0.5; 0.5; 0.5; 0.5]]%Q.

Definition dark_corners5 : grid :=
  [[0; 1; 1; 1; 0];
   [1; 1; 1; 1; 1];
   [1; 1; 1; 1; 1];
   [1; 1; 1; 1; 1];
   [0; 1; 1; 1; 0]]%Q.

(** Run from states where [m'] starts with at least the indices of [m] and
    the same record, both end alike and [m'] still has at least the indices
    of [m]. *)
Definition finds_no_more {A} (m m' : M A) : Prop :=
  forall s s',
    zero_index s ⊆ zero_index s' -> winding_calls s = winding_calls s' ->
    fst (m s) = fst (m' s') /\
    zero_index (snd (m s)) ⊆ zero_index (snd (m' s')) /\
    winding_calls (snd (m s)) = winding_calls (snd (m' s')).

(** The point [(x, y)] lies in the box [b]. *)
Definition in_bbox (b : bbox) (x y : Z) : Prop :=
  let '(x_max, x_min, y_max, y_min) := b in
  x_min <= x <= x_max /\ y_min <= y <= y_max.

(** The coordinates that [zoom_fit_zero] reads from its index list: the
    first index as [(x, y)], every later one as [(y, x)]. *)
Definition read_xs (p0 : point) (rest : list point) : list Z :=
  fst p0 :: map snd rest.
Definition read_ys (p0 : point) (rest : list point) : list Z :=
  snd p0 :: map fst rest.

(** The probe stops after [d] moves from [(x, y)]: sample [d - 1] is the
    first one that is not below [light_val] (the loop condition
    [light < light_val] fails on it), every sample before it was read and
    is below, and none of the [d] moves led to a negative index. *)
Definition stops_after (value : grid) (x_val max_val : bool) (x y : Z)
  (light_val : Q) (d : Z) : Prop :=
  1 <= d /\
  (exists v, sample_at value x_val max_val x y (d - 1) = Ret v /\
             ~ (v < light_val)%Q) /\
  (forall j, 0 <= j < d - 1 ->
             exists v, sample_at value x_val max_val x y j = Ret v /\
                       (v < light_val)%Q) /\
  (forall j, 1 <= j <= d ->
             0 <= fst (walk_pos x_val max_val x y j) /\
             0 <= snd (walk_pos x_val max_val x y j)).


(** The axis lies strictly inside the range. *)
Definition axis_inside (range : Q * Q) : Prop :=
  (fst range < 0 /\ 0 < snd range)%Q.

(** ** Sample arrays *)

(** A 2 x 2 array of zero brightness. *)
Definition dark2 : grid := [[0; 0]; [0; 0]]%Q.

(** A 4 x 4 brightness array, dark at column 2 of row 2 only. *)
Definition light4 : grid :=
  [[1; 1; 1; 1]; [1; 1; 1; 1]; [1; 1; 0; 1]; [1; 1; 1; 1]]%Q.

(** A 5 x 5 sample of [f(z) = z] around the origin: hue and brightness,
    to three decimals. *)
Definition hue5 : grid :=
  [[0.375; 0.324; 0.250; 0.176; 0.125];
   [0.426; 0.375; 0.250; 0.125; 0.074];
   [0.500; 0.500; 0.000; 0.000; 0.000];
   [0.574; 0.625; 0.750; 0.875; 0.926];
   [0.625; 0.676; 0.750; 0.824; 0.875]]%Q.

Definition value5 : grid :=
  [[0.784; 0.732; 0.705; 0.732; 0.784];
   [0.732; 0.608; 0.500; 0.608; 0.732];
   [0.705; 0.500; 0.000; 0.500; 0.705];
   [0.732; 0.608; 0.500; 0.608; 0.732];
   [0.784; 0.732; 0.705; 0.732; 0.784]]%Q.

(** * Properties *)

(** ** Comparisons *)

Lemma Qltb_lt a b : Qltb a b = true <-> (a < b)%Q.
Proof.
  unfold Qltb. rewrite negb_true_iff. split.
  - intros H. apply Qnot_le_lt. intros Hle.
    apply Qle_bool_iff in Hle. congruence.
  - intros H. destruct (Qle_bool b a) eqn:E; [|reflexivity].
    apply Qle_bool_iff in E. exfalso. exact (Qlt_not_le _ _ H E).
Qed.

Lemma Qltb_ge a b : Qltb a b = false <-> (b <= a)%Q.
Proof.
  unfold Qltb. rewrite negb_false_iff. apply Qle_bool_iff.
Qed.

Lemma Qgtb_gt a b : Qgtb a b = true <-> (b < a)%Q.
Proof. apply Qltb_lt. Qed.

Lemma Qgtb_le a b : Qgtb a b = false <-> (a <= b)%Q.
Proof. apply Qltb_ge. Qed.

(** ** Indexing *)

Lemma py_index_never_out_of_fuel {A} (l : list A) i : py_index l i <> OutOfFuel.
Proof.
  unfold py_index.
  destruct ((0 <=? _) && _); [|discriminate].
  destruct (l !! _); discriminate.
Qed.

Lemma py_index_in_range {A} (l : list A) i :
  0 <= i < Z.of_nat (length l) -> exists a, py_index l i = Ret a.
Proof.
  intros Hi. unfold py_index.
  assert (E0 : (0 <=? i) = true) by (apply Z.leb_le; lia).
  assert (E1 : (i <? Z.of_nat (length l)) = true) by (apply Z.ltb_lt; lia).
  rewrite E0. cbv zeta. rewrite E0, E1. simpl. destruct (lookup_lt_is_Some_2 l (Z.to_nat i)) as [a Ha]; [lia|].
  exists a. rewrite Ha. reflexivity.
Qed.

(** A successful read was at an index below the length. *)
Lemma py_index_Ret_lt {A} (l : list A) i a :
  py_index l i = Ret a -> i < Z.of_nat (length l).
Proof.
  unfold py_index. intros H.
  destruct (0 <=? i) eqn:E0.
  - destruct (i <? Z.of_nat (length l)) eqn:E1.
    + apply Z.ltb_lt in E1. exact E1.
    + rewrite andb_false_r in H. discriminate.
  - apply Z.leb_gt in E0. lia.
Qed.

Lemma getitem2_never_out_of_fuel a y x : getitem2 a y x <> OutOfFuel.
Proof.
  unfold getitem2. destruct (py_index a y) eqn:E; simpl; try discriminate.
  - apply py_index_never_out_of_fuel.
  - exfalso. exact (py_index_never_out_of_fuel _ _ E).
Qed.

Lemma rectangular_row a y row :
  rectangular a -> py_index a y = Ret row ->
  Z.of_nat (length row) = snd (shape a).
Proof.
  unfold rectangular, py_index. intros Hr H.
  destruct ((0 <=? _) && _); [|discriminate].
  set (n := Z.to_nat _) in H.
  destruct (a !! n) as [row'|] eqn:E; [|discriminate].
  inversion H; subst row'. simpl.
  rewrite Forall_lookup in Hr. rewrite (Hr _ _ E). reflexivity.
Qed.

Lemma getitem2_in_grid a y x :
  rectangular a ->
  0 <= y < fst (shape a) -> 0 <= x < snd (shape a) ->
  exists v, getitem2 a y x = Ret v.
Proof.
  intros Hr Hy Hx. unfold getitem2.
  destruct (py_index_in_range a y Hy) as [row Hrow].
  rewrite Hrow. simpl. apply py_index_in_range.
  rewrite (rectangular_row _ _ _ Hr Hrow). exact Hx.
Qed.

(** ** The signed hue difference *)

Lemma winding_path_cases val1 val2 :
  (_winding_path val1 val2 ==
     if Qgtb val2 lim1_w && Qltb val1 lim2_w then 1 + val1 - val2
     else if Qltb val2 lim2_w && Qgtb val1 lim1_w then - (1) + val1 - val2
     else val1 - val2)%Q.
Proof.
  unfold _winding_path.
  destruct (Qgtb val2 lim1_w) eqn:E1; simpl.
  - destruct (Qltb val1 lim2_w); simpl; [ring|].
    destruct (Qltb val2 lim2_w) eqn:E2; simpl; [|ring].
    apply Qgtb_gt in E1. apply Qltb_lt in E2.
    unfold lim1_w, lim2_w in *. lra.
  - destruct (Qltb val2 lim2_w); simpl; [|ring].
    destruct (Qgtb val1 lim1_w); ring.
Qed.

(** C1, as amended.  For a pair of hue samples walked from [val2] (previous)
    to [val1] (next): when the previous value exceeds 0.7 and the next value
    is below 0.3 the difference is [1 + val1 - val2] (forward wrap through
    0); when the previous value is below 0.3 and the next value exceeds 0.7
    it is [-1 + val1 - val2] (backward wrap); in every other case it is the
    plain difference [val1 - val2]. *)
Theorem winding_path_delta (val1 val2 : Q) :
  ((0.7 < val2 /\ val1 < 0.3 ->
      _winding_path val1 val2 == 1 + val1 - val2) /\
   (val2 < 0.3 /\ 0.7 < val1 ->
      _winding_path val1 val2 == - (1) + val1 - val2) /\
   (~ (0.7 < val2 /\ val1 < 0.3) -> ~ (val2 < 0.3 /\ 0.7 < val1) ->
      _winding_path val1 val2 == val1 - val2))%Q.
Proof.
  pose proof (winding_path_cases val1 val2) as H.
  unfold lim1_w, lim2_w in H.
  repeat split.
  - intros [H1 H2]. apply Qgtb_gt in H1. apply Qltb_lt in H2.
    rewrite H1, H2 in H. exact H.
  - intros [H1 H2]. apply Qltb_lt in H1. apply Qgtb_gt in H2.
    rewrite H1, H2 in H. simpl in H.
    destruct (Qgtb val2 0.7 && Qltb val1 0.3) eqn:E; [|exact H].
    apply andb_prop in E. destruct E as [E _].
    apply Qgtb_gt in E. apply Qltb_lt in H1. lra.
  - intros N1 N2.
    destruct (Qgtb val2 0.7 && Qltb val1 0.3) eqn:E1.
    { exfalso. apply N1. apply andb_prop in E1. destruct E1 as [Ea Eb].
      apply Qgtb_gt in Ea. apply Qltb_lt in Eb. split; assumption. }
    destruct (Qltb val2 0.3 && Qgtb val1 0.7) eqn:E2; [|exact H].
    exfalso. apply N2. apply andb_prop in E2. destruct E2 as [Ea Eb].
    apply Qltb_lt in Ea. apply Qgtb_gt in Eb. split; assumption.
Qed.

Lemma winding_path_delta_witness :
  (_winding_path (1 # 8) (7 # 8) == 1 + (1 # 8) - (7 # 8) /\
   _winding_path (7 # 8) (1 # 8) == - (1) + (7 # 8) - (1 # 8) /\
   _winding_path (1 # 2) (1 # 4) == (1 # 2) - (1 # 4))%Q.
Proof.
  split; [|split].
  - apply (proj1 (winding_path_delta (1 # 8) (7 # 8))).
    split; reflexivity.
  - apply (proj1 (proj2 (winding_path_delta (7 # 8) (1 # 8)))).
    split; reflexivity.
  - apply (proj2 (proj2 (winding_path_delta (1 # 2) (1 # 4)))).
    + intros [H _]. discriminate H.
    + intros [_ H]. discriminate H.
Defined.

(** C1, as stated, fails: with the next value [val1 = 7/8] above 0.7 and the
    previous value [val2 = 1/8] below 0.3 the code yields [-1/4], not
    [1 + val1 - val2 = 7/4]. *)
Lemma winding_path_next_high_prev_low :
  ((0.7 < 7 # 8) /\ ((1 # 8) < 0.3) /\
   _winding_path (7 # 8) (1 # 8) == - (1 # 4) /\
   ~ _winding_path (7 # 8) (1 # 8) == 1 + (7 # 8) - (1 # 8))%Q.
Proof.
  repeat split; intros H; discriminate H.
Qed.

(** ** Reasoning about the search monad *)

Section Monad_rules.
Context {A B : Type} (I : cz_state -> Prop).

Lemma preserves_mret (a : A) : preserves I (mret a).
Proof. intros s Hs. exact Hs. Qed.

Lemma preserves_mbind (m : M A) (k : A -> M B) :
  preserves I m -> (forall a, preserves I (k a)) -> preserves I (mbind m k).
Proof.
  intros Hm Hk s Hs. unfold mbind. specialize (Hm s Hs).
  destruct (m s) as [[a|e|] s']; simpl in *; auto.
  apply Hk. exact Hm.
Qed.

Lemma preserves_lift_bind (o : outcome A) (k : A -> M B) :
  (forall a, o = Ret a -> preserves I (k a)) ->
  preserves I (mbind (lift o) k).
Proof.
  intros Hk s Hs. unfold mbind, lift.
  destruct o as [a|e|]; simpl; auto.
  apply (Hk a eq_refl). exact Hs.
Qed.

Lemma returns_mbind (m : M A) (k : A -> M B) :
  returns m -> (forall a, returns (k a)) -> returns (mbind m k).
Proof.
  intros Hm Hk s. unfold mbind.
  destruct (Hm s) as (a & s' & E). rewrite E. apply Hk.
Qed.

Lemma terminates_mbind (m : M A) (k : A -> M B) :
  terminates m -> (forall a, terminates (k a)) -> terminates (mbind m k).
Proof.
  intros Hm Hk s. unfold mbind. specialize (Hm s).
  destruct (m s) as [[a|e|] s']; simpl in *; try discriminate.
  - apply Hk.
  - exfalso. apply Hm. reflexivity.
Qed.
End Monad_rules.

Lemma preserves_for_each I l body :
  (forall i, i ∈ l -> preserves I (body i)) -> preserves I (for_each l body).
Proof.
  induction l as [|i l IH]; intros H; simpl.
  - apply preserves_mret.
  - apply preserves_mbind.
    + apply H. left.
    + intros _. apply IH. intros j Hj. apply H. right. exact Hj.
Qed.

Lemma returns_for_each l body :
  (forall i, i ∈ l -> returns (body i)) -> returns (for_each l body).
Proof.
  induction l as [|i l IH]; intros H; simpl.
  - intros s. exists tt, s. reflexivity.
  - apply returns_mbind.
    + apply H. left.
    + intros _. apply IH. intros j Hj. apply H. right. exact Hj.
Qed.

Lemma terminates_for_each l body :
  (forall i, terminates (body i)) -> terminates (for_each l body).
Proof.
  intros H. induction l as [|i l IH]; simpl.
  - intros s. discriminate.
  - apply terminates_mbind; auto.
Qed.

Lemma terminates_check_point value tol x y :
  terminates (check_point value tol x y).
Proof.
  intros s. unfold check_point, mbind, lift.
  destruct (getitem2 value y x) as [v|e|] eqn:E; simpl; try discriminate.
  - destruct (Qltb v tol); discriminate.
  - exfalso. exact (getitem2_never_out_of_fuel _ _ _ E).
Qed.

Lemma returns_check_point value tol x y v :
  getitem2 value y x = Ret v -> returns (check_point value tol x y).
Proof.
  intros E s. unfold check_point, mbind, lift. rewrite E.
  destruct (Qltb v tol); eexists _, _; reflexivity.
Qed.

(** ** The winding number returns on rectangles inside the array *)

Lemma for_acc_never_out_of_fuel {S} l (body : Z -> S -> outcome S) acc :
  (forall i a, body i a <> OutOfFuel) -> for_acc l body acc <> OutOfFuel.
Proof.
  intros H. revert acc. induction l as [|i l IH]; intros acc; simpl.
  - discriminate.
  - destruct (body i acc) as [a|e|] eqn:E; simpl; try discriminate.
    + apply IH.
    + exfalso. exact (H _ _ E).
Qed.

Lemma for_acc_returns {S} l (body : Z -> S -> outcome S) acc :
  (forall i a, i ∈ l -> exists a', body i a = Ret a') ->
  exists a', for_acc l body acc = Ret a'.
Proof.
  revert acc. induction l as [|i l IH]; intros acc H; simpl.
  - eexists. reflexivity.
  - destruct (H i acc) as [a' E]; [left|]. rewrite E. simpl.
    apply IH. intros j a Hj. apply H. right. exact Hj.
Qed.

Ltac getitem_cases :=
  repeat match goal with
  | |- context [obind (getitem2 ?a ?y ?x) _] =>
    let E := fresh "E" in
    destruct (getitem2 a y x) eqn:E; simpl; try discriminate;
    try (exfalso; exact (getitem2_never_out_of_fuel _ _ _ E))
  end.

Lemma winding_row_never_out_of_fuel hue y1 y2 i w :
  winding_row hue y1 y2 i w <> OutOfFuel.
Proof. unfold winding_row. getitem_cases. Qed.

Lemma winding_col_never_out_of_fuel hue x1 x2 j w :
  winding_col hue x1 x2 j w <> OutOfFuel.
Proof. unfold winding_col. getitem_cases. Qed.

Lemma winding_num_never_out_of_fuel hue r : winding_num hue r <> OutOfFuel.
Proof.
  unfold winding_num. destruct (normalize r) as [[x1 y1] [x2 y2]].
  destruct (for_acc (zrange x1 x2) _ _) as [w|e|] eqn:E1; simpl;
    try discriminate.
  - destruct (for_acc (zrange y1 y2) _ _) as [w'|e|] eqn:E2; simpl;
      try discriminate.
    exfalso. revert E2. apply for_acc_never_out_of_fuel.
    intros. apply winding_col_never_out_of_fuel.
  - exfalso. revert E1. apply for_acc_never_out_of_fuel.
    intros. apply winding_row_never_out_of_fuel.
Qed.

Lemma normalize_ordered x1 y1 x2 y2 :
  x1 <= x2 -> y1 <= y2 -> normalize ((x1, y1), (x2, y2)) = ((x1, y1), (x2, y2)).
Proof.
  intros Hx Hy. unfold normalize.
  replace (x2 <? x1) with false by (symmetry; apply Z.ltb_ge; lia).
  replace (y2 <? y1) with false by (symmetry; apply Z.ltb_ge; lia).
  reflexivity.
Qed.

Lemma winding_num_returns hue r :
  rectangular hue -> in_grid (shape hue) r ->
  exists w, winding_num hue r = Ret w.
Proof.
  intros Hr. destruct r as [[x1 y1] [x2 y2]]. intros (Hx1 & Hx2 & Hy1 & Hy2).
  unfold winding_num. rewrite normalize_ordered by lia.
  assert (G : forall y x, 0 <= y < fst (shape hue) -> 0 <= x < snd (shape hue) ->
                          exists v, getitem2 hue y x = Ret v)
    by (intros; apply getitem2_in_grid; assumption).
  destruct (for_acc_returns (zrange x1 x2) (winding_row hue y1 y2) 0%Q)
    as [w1 E1].
  { intros i w Hi. apply elem_of_seqZ in Hi. unfold winding_row.
    destruct (G y2 (i + 1)) as [a Ea]; [lia | lia |].
    destruct (G y2 i) as [b Eb]; [lia | lia |].
    destruct (G y1 i) as [c Ec]; [lia | lia |].
    destruct (G y1 (i + 1)) as [d Ed]; [lia | lia |].
    rewrite Ea, Eb, Ec, Ed. simpl. eexists. reflexivity. }
  rewrite E1. simpl.
  destruct (for_acc_returns (zrange y1 y2) (winding_col hue x1 x2) w1)
    as [w2 E2].
  { intros j w Hj. apply elem_of_seqZ in Hj. unfold winding_col.
    destruct (G j x2) as [a Ea]; [lia | lia |].
    destruct (G (j + 1) x2) as [b Eb]; [lia | lia |].
    destruct (G (j + 1) x1) as [c Ec]; [lia | lia |].
    destruct (G j x1) as [d Ed]; [lia | lia |].
    rewrite Ea, Eb, Ec, Ed. simpl. eexists. reflexivity. }
  rewrite E2. simpl. eexists. reflexivity.
Qed.

(** ** The recursion of [_calc_zeros] *)

Lemma ceil_half_spec a b : ceil_half a b = (a + b + 1) / 2.
Proof.
  unfold ceil_half, Qceiling, Qfloor, Qdiv, Qmult, Qopp, Qinv, inject_Z.
  simpl. Z.div_mod_to_equations. lia.
Qed.

Lemma ceil_half_bounds a b :
  a + 4 <= b ->
  a + 2 <= ceil_half a b <= b - 2 /\ a + 2 <= ceil_half b a <= b - 2.
Proof.
  intros H. rewrite !ceil_half_spec.
  replace (b + a + 1) with (a + b + 1) by lia.
  Z.div_mod_to_equations. lia.
Qed.

(** Outside the base case the side that is bisected has span at least 4. *)
Lemma bisected_span x1 y1 x2 y2 :
  (y2 - y1 <=? 3) && (x2 - x1 <=? 3) = false ->
  (y2 - y1 < x2 - x1 -> 4 <= x2 - x1) /\
  (x2 - x1 <= y2 - y1 -> 4 <= y2 - y1).
Proof.
  intros H. apply andb_false_iff in H.
  rewrite !Z.leb_gt in H. lia.
Qed.

Section Calc_zeros_rule.
Variable P : forall A, M A -> Prop.
Variable R : rect -> Prop.
Variables (hue value : grid) (tol : Q).

Hypothesis P_ret : P unit (mret tt).
Hypothesis P_bind : forall A B (m : M A) (k : A -> M B),
  P A m -> (forall a, P B (k a)) -> P B (mbind m k).
Hypothesis R_split : split_closed R.
Hypothesis P_winding : forall r, R r -> P Z (call_winding_num hue r).
Hypothesis P_check : forall r x y,
  R r -> touched r x y -> P unit (check_point value tol x y).

Lemma for_each_rule l body :
  (forall i, i ∈ l -> P unit (body i)) -> P unit (for_each l body).
Proof.
  induction l as [|i l IH]; intros H; simpl.
  - exact P_ret.
  - apply P_bind.
    + apply H. left.
    + intros _. apply IH. intros j Hj. apply H. right. exact Hj.
Qed.

(** Whatever holds of the reads and of the calls to [winding_num], and is
    kept by sequencing, holds of the whole search. *)
Lemma calc_zeros_rule fuel :
  forall r, R r -> (rect_measure r < fuel)%nat ->
            P unit (_calc_zeros fuel hue value r tol).
Proof.
  induction fuel as [|fuel IH]; intros [[x1 y1] [x2 y2]] HR Hm; [lia|].
  simpl.
  destruct ((y2 - y1 <=? 3) && (x2 - x1 <=? 3)) eqn:Ebase.
  - apply for_each_rule. intros i Hi. apply for_each_rule. intros j Hj.
    apply elem_of_seqZ in Hi. apply elem_of_seqZ in Hj.
    apply (P_check _ _ _ HR). simpl. left. lia.
  - destruct (bisected_span _ _ _ _ Ebase) as [Hx Hy].
    destruct (R_split _ _ _ _ HR Ebase) as [Rx Ry].
    apply P_bind; [apply P_winding; exact HR|]. intros w.
    destruct (w =? 0).
    + apply P_bind; [|intros _]; apply for_each_rule; intros i Hi;
        apply elem_of_seqZ in Hi;
        (apply P_bind; [|intros _]); apply (P_check _ _ _ HR); simpl;
        right; lia.
    + simpl in Hm. destruct (y2 - y1 <? x2 - x1) eqn:Edir.
      * apply Z.ltb_lt in Edir. specialize (Hx Edir).
        destruct (Rx Edir) as [Ra Rb].
        destruct (ceil_half_bounds x1 x2 ltac:(lia)) as [_ Hc].
        apply P_bind; [|intros _]; apply IH; try assumption; simpl; lia.
      * apply Z.ltb_ge in Edir. specialize (Hy Edir).
        destruct (Ry Edir) as [Ra Rb].
        destruct (ceil_half_bounds y1 y2 ltac:(lia)) as [Hc Hc'].
        apply P_bind; [|intros _]; apply IH; try assumption; simpl; lia.
Qed.
End Calc_zeros_rule.

(** The recursion budget of the model is never exhausted. *)
Lemma calc_zeros_terminates hue value tol fuel r :
  (rect_measure r < fuel)%nat ->
  terminates (_calc_zeros fuel hue value r tol).
Proof.
  intros Hm.
  apply (calc_zeros_rule (fun A m => terminates m) (fun _ => True)
           hue value tol).
  - intros s. discriminate.
  - intros A B m k. apply terminates_mbind.
  - intros x1 y1 x2 y2 _ _. tauto.
  - intros r0 _ s. simpl. apply winding_num_never_out_of_fuel.
  - intros. apply terminates_check_point.
  - exact Logic.I.
  - exact Hm.
Qed.

Lemma in_grid_split_closed sh : split_closed (in_grid sh).
Proof.
  intros x1 y1 x2 y2 (Hx1 & Hx2 & Hy1 & Hy2) Ebase.
  destruct (bisected_span _ _ _ _ Ebase) as [Hx Hy].
  split; intros Hd.
  - destruct (ceil_half_bounds x1 x2 ltac:(lia)) as [_ Hc].
    simpl. lia.
  - destruct (ceil_half_bounds y1 y2 ltac:(lia)) as [Hc Hc'].
    simpl. lia.
Qed.

(** On a rectangle inside the arrays the search returns normally. *)
Lemma calc_zeros_returns hue value tol fuel r :
  rectangular hue -> rectangular value -> shape value = shape hue ->
  in_grid (shape hue) r -> (rect_measure r < fuel)%nat ->
  returns (_calc_zeros fuel hue value r tol).
Proof.
  intros Hh Hv Hs Hg Hm.
  apply (calc_zeros_rule (fun A m => returns m) (in_grid (shape hue))
           hue value tol).
  - intros s. exists tt, s. reflexivity.
  - intros A B m k. apply returns_mbind.
  - apply in_grid_split_closed.
  - intros r0 Hr0 s. destruct (winding_num_returns hue r0 Hh Hr0) as [w E].
    unfold call_winding_num. rewrite E. eexists _, _. reflexivity.
  - intros [[x1 y1] [x2 y2]] x y (Hx1 & Hx2 & Hy1 & Hy2) Ht.
    destruct (getitem2_in_grid value y x Hv) as [v E].
    + rewrite Hs. simpl in Ht. lia.
    + rewrite Hs. simpl in Ht. lia.
    + exact (returns_check_point _ _ _ _ _ E).
  - exact Hg.
  - exact Hm.
Qed.

Lemma calc_zeros_below_tol hue value tol root fuel r :
  (forall p, inside_box r p -> inside_box root p) ->
  (rect_measure r < fuel)%nat ->
  preserves (fun s => forall p, p ∈ zero_index s -> below_tol_in value tol root p)
    (_calc_zeros fuel hue value r tol).
Proof.
  intros Hsub Hm.
  set (I := fun s => forall p, p ∈ zero_index s -> below_tol_in value tol root p).
  apply (calc_zeros_rule (fun A m => preserves I m)
           (fun r => forall p, inside_box r p -> inside_box root p)
           hue value tol).
  - apply preserves_mret.
  - intros A B m k. apply preserves_mbind.
  - intros x1 y1 x2 y2 HR Ebase.
    destruct (bisected_span _ _ _ _ Ebase) as [Hx Hy].
    split; intros Hd.
    + destruct (ceil_half_bounds x1 x2 ltac:(lia)) as [_ Hc].
      split; intros [px py] Hp; apply HR; simpl in *; lia.
    + destruct (ceil_half_bounds y1 y2 ltac:(lia)) as [Hc Hc'].
      split; intros [px py] Hp; apply HR; simpl in *; lia.
  - intros r0 _ s Hs. exact Hs.
  - intros [[x1 y1] [x2 y2]] x y HR Ht.
    unfold check_point. apply preserves_lift_bind. intros v Ev.
    destruct (Qltb v tol) eqn:Elt; [|apply preserves_mret].
    apply Qltb_lt in Elt.
    intros s Hs p Hp. simpl in Hp.
    apply elem_of_union in Hp. destruct Hp as [Hp|Hp]; [|exact (Hs p Hp)].
    apply elem_of_singleton in Hp. subst p. split.
    + apply HR. simpl in *. lia.
    + exists v. split; assumption.
  - exact Hsub.
  - exact Hm.
Qed.

Lemma calc_zeros_winding_wide hue value tol fuel r :
  wide r -> (rect_measure r < fuel)%nat ->
  preserves (fun s => Forall wide (winding_calls s))
    (_calc_zeros fuel hue value r tol).
Proof.
  intros Hw Hm.
  apply (calc_zeros_rule
           (fun A m => preserves (fun s => Forall wide (winding_calls s)) m)
           wide hue value tol).
  - apply preserves_mret.
  - intros A B m k. apply preserves_mbind.
  - intros x1 y1 x2 y2 [Hwx Hwy] Ebase.
    destruct (bisected_span _ _ _ _ Ebase) as [Hx Hy].
    split; intros Hd.
    + destruct (ceil_half_bounds x1 x2 ltac:(lia)) as [_ Hc].
      simpl. lia.
    + destruct (ceil_half_bounds y1 y2 ltac:(lia)) as [Hc Hc'].
      simpl. lia.
  - intros r0 Hr0 s Hs. simpl. apply Forall_app. split; [exact Hs|].
    constructor; [exact Hr0|constructor].
  - intros r0 x y _ _. unfold check_point.
    apply preserves_lift_bind. intros v _.
    destruct (Qltb v tol); intros s Hs; exact Hs.
  - exact Hw.
  - exact Hm.
Qed.

(** ** What a scan adds to the set *)

Lemma adds_equiv m F G : adds m F -> (forall p, F p <-> G p) -> adds m G.
Proof.
  intros H HFG s. destruct (H s) as (s' & E & Hc & Hz).
  exists s'. split; [exact E|]. split; [exact Hc|].
  intros p. rewrite Hz, HFG. reflexivity.
Qed.

Lemma adds_check_point value tol x y :
  (exists v, getitem2 value y x = Ret v) ->
  adds (check_point value tol x y)
    (fun p => p = (x, y) /\
              exists v, getitem2 value y x = Ret v /\ (v < tol)%Q).
Proof.
  intros [v E] s. unfold check_point, mbind, lift. rewrite E.
  destruct (Qltb v tol) eqn:Elt.
  - apply Qltb_lt in Elt. eexists. split; [reflexivity|]. split; [reflexivity|].
    intros p. simpl. rewrite elem_of_union, elem_of_singleton. split.
    + intros [->|H]; [right|left; exact H]. split; [reflexivity|].
      exists v. split; [reflexivity|exact Elt].
    + intros [H|[-> _]]; [right; exact H|left; reflexivity].
  - apply Qltb_ge in Elt. exists s. split; [reflexivity|]. split; [reflexivity|].
    intros p. split; [intros H; left; exact H|].
    intros [H|[_ (v' & E' & Hlt)]]; [exact H|].
    inversion E'; subst v'.
    exfalso. exact (Qlt_not_le _ _ Hlt Elt).
Qed.

Lemma adds_for_each l body (F : Z -> point -> Prop) :
  (forall i, i ∈ l -> adds (body i) (F i)) ->
  adds (for_each l body) (fun p => exists i, i ∈ l /\ F i p).
Proof.
  induction l as [|i l IH]; intros H s; simpl.
  - exists s. split; [reflexivity|]. split; [reflexivity|].
    intros p. split; [intros Hp; left; exact Hp|].
    intros [Hp|(j & Hj & _)]; [exact Hp|]. inversion Hj.
  - unfold mbind.
    destruct (H i ltac:(left) s) as (s1 & E1 & Hc1 & Hz1). rewrite E1.
    destruct (IH (fun j Hj => H j ltac:(right; exact Hj)) s1)
      as (s2 & E2 & Hc2 & Hz2).
    exists s2. split; [exact E2|]. split; [congruence|].
    intros p. rewrite Hz2, Hz1. split.
    + intros [[Hp|Hp]|(j & Hj & Hp)].
      * left. exact Hp.
      * right. exists i. split; [left|exact Hp].
      * right. exists j. split; [right; exact Hj|exact Hp].
    + intros [Hp|(j & Hj & Hp)]; [left; left; exact Hp|].
      apply elem_of_cons in Hj. destruct Hj as [->|Hj].
      * left. right. exact Hp.
      * right. exists j. split; assumption.
Qed.

(** C3, as amended.  In the base case (span at most 3 along both axes)
    [_calc_zeros] scans the points [(i, j)] with [x1 <= i < x2] and
    [y1 <= j < y2], that is without the far column [x2] and the far row
    [y2]; it returns normally, calls [winding_num] on nothing, and adds to
    the set exactly the scanned points whose brightness is below [tol]. *)
Theorem base_case_scan (hue value : grid) (tol : Q) (fuel : nat)
  (x1 y1 x2 y2 : Z) (s : cz_state)
  (Hy : y2 - y1 <= 3) (Hx : x2 - x1 <= 3)
  (Hread : forall i j, x1 <= i < x2 -> y1 <= j < y2 ->
                       exists v, getitem2 value j i = Ret v) :
  exists s',
    _calc_zeros (S fuel) hue value ((x1, y1), (x2, y2)) tol s = (Ret tt, s') /\
    winding_calls s' = winding_calls s /\
    forall i j,
      (i, j) ∈ zero_index s' <->
      (i, j) ∈ zero_index s \/
      (x1 <= i < x2 /\ y1 <= j < y2 /\
       exists v, getitem2 value j i = Ret v /\ (v < tol)%Q).
Proof.
  simpl.
  replace (y2 - y1 <=? 3) with true by (symmetry; apply Z.leb_le; lia).
  replace (x2 - x1 <=? 3) with true by (symmetry; apply Z.leb_le; lia).
  simpl.
  assert (A : adds
    (for_each (zrange x1 x2) (fun i =>
       for_each (zrange y1 y2) (fun j => check_point value tol i j)))
    (fun p => x1 <= fst p < x2 /\ y1 <= snd p < y2 /\
              exists v, getitem2 value (snd p) (fst p) = Ret v /\ (v < tol)%Q)).
  { eapply adds_equiv.
    - apply adds_for_each with
        (F := fun i p => exists j, j ∈ zrange y1 y2 /\ p = (i, j) /\
                exists v, getitem2 value j i = Ret v /\ (v < tol)%Q).
      intros i Hi. apply elem_of_seqZ in Hi.
      apply adds_for_each with
        (F := fun j p => p = (i, j) /\
                exists v, getitem2 value j i = Ret v /\ (v < tol)%Q).
      intros j Hj. apply elem_of_seqZ in Hj.
      apply adds_check_point. apply Hread; lia.
    - intros [px py]. simpl. split.
      + intros (i & Hi & j & Hj & Hp & Hv).
        apply elem_of_seqZ in Hi. apply elem_of_seqZ in Hj.
        inversion Hp; subst. repeat split; try lia. exact Hv.
      + intros (Hpx & Hpy & Hv).
        exists px. split; [apply elem_of_seqZ; lia|].
        exists py. split; [apply elem_of_seqZ; lia|].
        split; [reflexivity|exact Hv]. }
  destruct (A s) as (s' & E & Hc & Hz).
  exists s'. split; [exact E|]. split; [exact Hc|].
  intros i j. rewrite Hz. simpl. reflexivity.
Qed.

Lemma base_case_scan_witness :
  exists s',
    _calc_zeros 1 dark2 dark2 ((0, 0), (1, 1)) 0.01 empty_state = (Ret tt, s') /\
    winding_calls s' = winding_calls empty_state /\
    forall i j,
      (i, j) ∈ zero_index s' <->
      (i, j) ∈ zero_index empty_state \/
      (0 <= i < 1 /\ 0 <= j < 1 /\
       exists v, getitem2 dark2 j i = Ret v /\ (v < 0.01)%Q).
Proof.
  apply (base_case_scan dark2 dark2 0.01 0 0 0 1 1 empty_state).
  - lia.
  - lia.
  - intros i j Hi Hj. assert (i = 0) by lia. assert (j = 0) by lia.
    subst. exists 0%Q. reflexivity.
Defined.

(** C3, as stated, fails: on the base-case rectangle [(0,0),(1,1)] of an
    all-dark array the boundary point [(1, 1)] has brightness below the
    tolerance and is not recorded; only [(0, 0)] is. *)
Lemma base_case_misses_far_corner :
  getitem2 dark2 1 1 = Ret 0%Q /\ (0 < 0.01)%Q /\
  elements (zero_index
    (snd (_calc_zeros 1 dark2 dark2 ((0, 0), (1, 1)) 0.01 empty_state)))
  = [(0, 0)] /\
  ((1, 1) ∉ zero_index
     (snd (_calc_zeros 1 dark2 dark2 ((0, 0), (1, 1)) 0.01 empty_state))) /\
  exists zero_list,
    zeros dark2 dark2 (0, 1)%Q (0, 1)%Q None 0.01 = Ret (zero_list, [(0, 0)]).
Proof.
  assert (E : elements (zero_index
    (snd (_calc_zeros 1 dark2 dark2 ((0, 0), (1, 1)) 0.01 empty_state)))
    = [(0, 0)]) by (vm_compute; reflexivity).
  split; [reflexivity|]. split; [reflexivity|]. split; [exact E|].
  split.
  - intros H. apply elem_of_elements in H. rewrite E in H.
    apply list_elem_of_singleton in H. discriminate H.
  - eexists. vm_compute. reflexivity.
Qed.

(** ** [zeros] *)

Lemma zeros_Ret hue value re_range im_range r tol zero_list index_list :
  zeros hue value re_range im_range r tol = Ret (zero_list, index_list) ->
  exists s,
    zeros_search hue value r tol = (Ret tt, s) /\
    fst (shape hue) - 1 <> 0 /\
    index_list = elements (zero_index s) /\
    zero_list =
      map (index_to_complex re_range im_range (zeros_step hue re_range))
        index_list.
Proof.
  unfold zeros, zeros_step. simpl.
  destruct (zeros_search hue value r tol) as [[[]|e|] s]; try discriminate.
  destruct (Z.of_nat (length hue) - 1 =? 0) eqn:E; [discriminate|].
  intros H. inversion H; subst. exists s.
  apply Z.eqb_neq in E. repeat split. exact E.
Qed.

Lemma zeros_search_below_tol hue value r tol p :
  p ∈ zero_index (snd (zeros_search hue value r tol)) ->
  below_tol_in value tol (start_rect hue r) p.
Proof.
  unfold zeros_search.
  apply (calc_zeros_below_tol hue value tol (start_rect hue r)
           (calc_fuel (start_rect hue r)) (start_rect hue r)).
  - intros q Hq. exact Hq.
  - unfold calc_fuel. lia.
  - intros q Hq. simpl in Hq. apply not_elem_of_empty in Hq. destruct Hq.
Qed.

Lemma zeros_never_out_of_fuel hue value re_range im_range r tol :
  zeros hue value re_range im_range r tol <> OutOfFuel.
Proof.
  pose proof (calc_zeros_terminates hue value tol
                (calc_fuel (start_rect hue r)) (start_rect hue r)
                ltac:(unfold calc_fuel; lia) empty_state) as H.
  change (fst (zeros_search hue value r tol) <> OutOfFuel) in H.
  unfold zeros. destruct (shape hue) as [row col].
  destruct (zeros_search hue value r tol) as [[[]|e|] s]; simpl in *.
  - destruct (_ =? 0); discriminate.
  - discriminate.
  - exfalso. apply H. reflexivity.
Qed.

(** On arrays of one shape with at least two rows, and a starting rectangle
    inside them, [zeros] returns normally. *)
Lemma zeros_returns hue value re_range im_range r tol :
  search_in_range hue value r ->
  exists zero_list index_list,
    zeros hue value re_range im_range r tol = Ret (zero_list, index_list).
Proof.
  intros (Hh & Hv & Hs & Hrow & Hg).
  destruct (calc_zeros_returns hue value tol (calc_fuel (start_rect hue r))
              (start_rect hue r) Hh Hv Hs Hg
              ltac:(unfold calc_fuel; lia) empty_state) as ([] & s & E).
  assert (E' : zeros_search hue value r tol = (Ret tt, s)) by exact E.
  unfold zeros. destruct (shape hue) as [row col]. rewrite E'.
  replace (row - 1 =? 0) with false
    by (symmetry; apply Z.eqb_neq; simpl in Hrow; lia).
  eexists _, _. reflexivity.
Qed.

Lemma zeros_Ret_below_tol hue value re_range im_range r tol
  zero_list index_list col row :
  zeros hue value re_range im_range r tol = Ret (zero_list, index_list) ->
  (col, row) ∈ index_list ->
  inside_box (start_rect hue r) (col, row) /\
  exists v, getitem2 value row col = Ret v /\ (v < tol)%Q.
Proof.
  intros Hret Hin.
  destruct (zeros_Ret _ _ _ _ _ _ _ _ Hret) as (s & Es & _ & Ei & _).
  subst index_list. apply elem_of_elements in Hin.
  pose proof (zeros_search_below_tol hue value r tol (col, row)) as H.
  rewrite Es in H. exact (H Hin).
Qed.

(** C10.  Every index [(col, row)] in the index list that [zeros] returns
    lies within the bounds of the searched rectangle, and
    [value[row][col]] is below [tol]: both the base-case scan and the edge
    scan record a point only after finding its brightness below the
    tolerance.  On inputs in range [zeros] does return such a list. *)
Theorem zeros_indices_below_tol (hue value : grid) (re_range im_range : Q * Q)
  (r : option rect) (tol : Q) :
  (search_in_range hue value r ->
   exists zero_list index_list,
     zeros hue value re_range im_range r tol = Ret (zero_list, index_list)) /\
  (forall zero_list index_list col row,
     zeros hue value re_range im_range r tol = Ret (zero_list, index_list) ->
     (col, row) ∈ index_list ->
     inside_box (start_rect hue r) (col, row) /\
     exists v, getitem2 value row col = Ret v /\ (v < tol)%Q).
Proof.
  split.
  - apply zeros_returns.
  - intros zero_list index_list col row. apply zeros_Ret_below_tol.
Qed.

(** C9.  When the starting rectangle of [zeros] (the whole array by
    default) has span at least 1 along both axes, so has every rectangle
    on which the search invokes [winding_num]. *)
Theorem winding_num_only_on_wide (hue value : grid) (r : option rect) (tol : Q)
  (Hstart : wide (start_rect hue r)) :
  Forall wide (winding_calls (snd (zeros_search hue value r tol))).
Proof.
  unfold zeros_search.
  apply (calc_zeros_winding_wide hue value tol
           (calc_fuel (start_rect hue r)) (start_rect hue r) Hstart).
  - unfold calc_fuel. lia.
  - constructor.
Qed.

Lemma zeros_Ret_values hue value re_range im_range r tol
  zero_list index_list :
  zeros hue value re_range im_range r tol = Ret (zero_list, index_list) ->
  Forall2
    (fun z index =>
       (re z == fst re_range
                + inject_Z (fst index) * zeros_step hue re_range)%Q /\
       (im z == fst im_range
                + inject_Z (snd index) * zeros_step hue re_range)%Q)
    zero_list index_list.
Proof.
  intros Hret.
  destruct (zeros_Ret _ _ _ _ _ _ _ _ Hret) as (s & _ & _ & _ & Ez).
  subst zero_list. clear Hret.
  induction index_list as [|[col row] l IH]; simpl; constructor.
  - simpl. split; ring.
  - exact IH.
Qed.

(** C5.  The complex values that [zeros] returns are, index by index,
    [re_range[0] + col*step + (im_range[0] + row*step) i] with the one
    [step = (re_range[1] - re_range[0]) / (rows - 1)] on both axes, whatever
    [im_range] is.  On inputs in range [zeros] does return such lists. *)
Theorem zeros_complex_values (hue value : grid) (re_range im_range : Q * Q)
  (r : option rect) (tol : Q) :
  (search_in_range hue value r ->
   exists zero_list index_list,
     zeros hue value re_range im_range r tol = Ret (zero_list, index_list)) /\
  (forall zero_list index_list,
     zeros hue value re_range im_range r tol = Ret (zero_list, index_list) ->
     Forall2
       (fun z index =>
          let step :=
            ((snd re_range - fst re_range)
             / inject_Z (fst (shape hue) - 1))%Q in
          (re z == fst re_range + inject_Z (fst index) * step)%Q /\
          (im z == fst im_range + inject_Z (snd index) * step)%Q)
       zero_list index_list).
Proof.
  split.
  - apply zeros_returns.
  - intros zero_list index_list. apply zeros_Ret_values.
Qed.

(** ** The brightness probe *)

Lemma py_index_raises {A} (l : list A) i e :
  py_index l i = Raise e -> e = IndexError.
Proof.
  unfold py_index. destruct ((0 <=? _) && _).
  - destruct (l !! _); intros H; inversion H; reflexivity.
  - intros H; inversion H; reflexivity.
Qed.

Lemma getitem2_raises a y x e : getitem2 a y x = Raise e -> e = IndexError.
Proof.
  unfold getitem2. destruct (py_index a y) as [row|e'|] eqn:E; simpl.
  - apply py_index_raises.
  - intros H. inversion H; subst. exact (py_index_raises _ _ _ E).
  - discriminate.
Qed.

(** A successful read [value[y][x]] is inside row [y] and inside the
    array. *)
Lemma getitem2_Ret_lt value y x v :
  getitem2 value y x = Ret v ->
  x < row_width value y /\ y < Z.of_nat (length value).
Proof.
  unfold getitem2, row_width.
  destruct (py_index value y) as [row| |] eqn:E; simpl; try discriminate.
  intros H. split.
  - exact (py_index_Ret_lt _ _ _ H).
  - exact (py_index_Ret_lt _ _ _ E).
Qed.

Lemma brightness_loop_terminates value light_val x_val max_val fuel :
  forall x y diff light,
    (Z.to_nat (probe_room value x_val max_val x y) < fuel)%nat ->
    _brightness_loop fuel value x y light_val x_val max_val diff light
    <> OutOfFuel.
Proof.
  induction fuel as [|fuel IH]; intros x y diff light Hf; [lia|].
  simpl. destruct (Qltb light light_val); [|discriminate].
  destruct (getitem2 value y x) as [l|e|] eqn:E; simpl; try discriminate.
  2:{ exfalso. exact (getitem2_never_out_of_fuel _ _ _ E). }
  apply getitem2_Ret_lt in E. destruct E as [Ex Ey].
  destruct (probe_move x_val max_val x y) as [x' y'] eqn:Em.
  destruct ((x' <? 0) || (y' <? 0)) eqn:Eneg; [discriminate|].
  apply orb_false_iff in Eneg. destruct Eneg as [Hx' Hy'].
  apply Z.ltb_ge in Hx'. apply Z.ltb_ge in Hy'.
  apply IH. unfold probe_room, probe_move in *.
  destruct max_val, x_val; inversion Em; subst; lia.
Qed.

Lemma brightness_loop_raises value light_val x_val max_val fuel :
  forall x y diff light e,
    _brightness_loop fuel value x y light_val x_val max_val diff light
    = Raise e -> e = IndexError.
Proof.
  induction fuel as [|fuel IH]; intros x y diff light e; simpl.
  - destruct (Qltb light light_val); discriminate.
  - destruct (Qltb light light_val); [|discriminate].
    destruct (getitem2 value y x) as [l|e'|] eqn:E; simpl; try discriminate.
    + destruct (probe_move x_val max_val x y) as [x' y'].
      destruct ((x' <? 0) || (y' <? 0)).
      * intros H. inversion H. reflexivity.
      * apply IH.
    + intros H. inversion H; subst. exact (getitem2_raises _ _ _ _ E).
Qed.

Lemma brightness_loop_Ret value light_val x_val max_val fuel :
  forall x y diff light d,
    _brightness_loop fuel value x y light_val x_val max_val diff light
    = Ret d ->
    diff <= d /\
    ((light < light_val)%Q -> diff + 1 <= d) /\
    (diff < d -> walk_ok value x_val max_val x y (d - diff)).
Proof.
  induction fuel as [|fuel IH]; intros x y diff light d; simpl.
  - destruct (Qltb light light_val) eqn:El; [discriminate|].
    intros H. inversion H; subst. apply Qltb_ge in El.
    split; [lia|]. split; [|lia].
    intros Hl. exfalso. exact (Qlt_not_le _ _ Hl El).
  - destruct (Qltb light light_val) eqn:El.
    + destruct (getitem2 value y x) as [l|e'|] eqn:E; simpl; try discriminate.
      apply getitem2_Ret_lt in E. destruct E as [Ex Ey].
      destruct (probe_move x_val max_val x y) as [x' y'] eqn:Em.
      destruct ((x' <? 0) || (y' <? 0)) eqn:Eneg; [discriminate|].
      apply orb_false_iff in Eneg. destruct Eneg as [Hx' Hy'].
      apply Z.ltb_ge in Hx'. apply Z.ltb_ge in Hy'.
      intros H. apply IH in H. destruct H as (H1 & _ & H3).
      split; [lia|]. split; [lia|]. intros _.
      destruct (Z.eq_dec d (diff + 1)) as [->|Hne].
      * unfold walk_ok, probe_move in *.
        destruct max_val, x_val; inversion Em; subst; lia.
      * specialize (H3 ltac:(lia)). unfold walk_ok, probe_move in *.
        destruct max_val, x_val; inversion Em; subst; lia.
    + intros H. inversion H; subst. apply Qltb_ge in El.
      split; [lia|]. split; [|lia].
      intros Hl. exfalso. exact (Qlt_not_le _ _ Hl El).
Qed.

(** [_brightness] always returns: a count or [None]. *)
Lemma brightness_returns value x y light_val x_val max_val :
  exists o, _brightness value x y light_val x_val max_val = Ret o.
Proof.
  unfold _brightness.
  destruct (_brightness_loop _ _ _ _ _ _ _ _ _) as [d|e|] eqn:E.
  - eexists. reflexivity.
  - apply brightness_loop_raises in E. subst e. eexists. reflexivity.
  - exfalso. revert E. apply brightness_loop_terminates.
    unfold brightness_fuel, probe_room. lia.
Qed.

(** A probe that succeeds made [d >= 0] moves, at least one when the
    threshold is positive, and stayed inside the array. *)
Lemma brightness_Some value x y light_val x_val max_val d :
  _brightness value x y light_val x_val max_val = Ret (Some d) ->
  0 <= d /\
  ((0 < light_val)%Q -> 1 <= d /\ walk_ok value x_val max_val x y d).
Proof.
  unfold _brightness.
  destruct (_brightness_loop _ _ _ _ _ _ _ _ _) as [d'|e|] eqn:E;
    try discriminate.
  2:{ destruct e; discriminate. }
  intros H. inversion H; subst d'.
  apply brightness_loop_Ret in E. destruct E as (H1 & H2 & H3).
  split; [lia|]. intros Hl. specialize (H2 Hl). split; [lia|].
  replace d with (d - 0) by lia. apply H3. lia.
Qed.

Lemma walk_pos_0 x_val max_val x y : walk_pos x_val max_val x y 0 = (x, y).
Proof.
  unfold walk_pos. destruct max_val, x_val; f_equal; lia.
Qed.

Lemma walk_pos_S x_val max_val x y k :
  walk_pos x_val max_val
    (fst (probe_move x_val max_val x y)) (snd (probe_move x_val max_val x y)) k
  = walk_pos x_val max_val x y (k + 1).
Proof.
  unfold walk_pos, probe_move. destruct max_val, x_val; simpl; f_equal; lia.
Qed.

(** A loop that returns after entering its body stopped at the first sample
    that reaches the threshold, after reading every sample before it. *)
Lemma brightness_loop_stop value light_val x_val max_val fuel :
  forall x y diff light d,
    _brightness_loop fuel value x y light_val x_val max_val diff light
    = Ret d ->
    (light < light_val)%Q ->
    exists k,
      0 <= k /\ d = diff + k + 1 /\
      (exists v, sample_at value x_val max_val x y k = Ret v /\
                 (light_val <= v)%Q) /\
      (forall j, 0 <= j < k ->
                 exists v, sample_at value x_val max_val x y j = Ret v /\
                           (v < light_val)%Q).
Proof.
  induction fuel as [|fuel IH]; intros x y diff light d; simpl.
  - intros H Hl. apply Qltb_lt in Hl. rewrite Hl in H. discriminate.
  - intros H Hl. pose proof Hl as Hl'. apply Qltb_lt in Hl'. rewrite Hl' in H.
    destruct (getitem2 value y x) as [l|e'|] eqn:E; simpl in H;
      try discriminate.
    pose proof (walk_pos_S x_val max_val x y) as HS.
    destruct (probe_move x_val max_val x y) as [x' y'] eqn:Em. simpl in HS.
    destruct ((x' <? 0) || (y' <? 0)) eqn:Eneg; [discriminate|].
    assert (E0 : sample_at value x_val max_val x y 0 = Ret l)
      by (unfold sample_at; rewrite walk_pos_0; exact E).
    destruct (Qltb l light_val) eqn:El.
    + apply Qltb_lt in El. destruct (IH _ _ _ _ _ H El)
        as (k & Hk & Hd & (v & Ev & Hv) & Hbefore).
      exists (k + 1). split; [lia|]. split; [lia|]. split.
      * exists v. unfold sample_at in *. rewrite <- HS. split; assumption.
      * intros j Hj. destruct (Z.eq_dec j 0) as [->|Hne].
        -- exists l. split; assumption.
        -- destruct (Hbefore (j - 1) ltac:(lia)) as (w & Ew & Hw).
           exists w. unfold sample_at in *. rewrite HS in Ew.
           replace (j - 1 + 1) with j in Ew by lia. split; assumption.
    + assert (Hd : d = diff + 1).
      { destruct fuel; simpl in H; rewrite El in H; inversion H; reflexivity. }
      apply Qltb_ge in El. exists 0. split; [lia|]. split; [lia|]. split.
      * exists l. split; assumption.
      * intros j Hj. lia.
Qed.

(** For a positive threshold a probe that succeeds with count [d] stopped
    at sample [d - 1], the first one that reaches the threshold, and stayed
    inside the array; a probe towards smaller indices stopped at an index
    that is at least 1. *)
Lemma brightness_Some_first value x y light_val x_val max_val d :
  (0 < light_val)%Q ->
  _brightness value x y light_val x_val max_val = Ret (Some d) ->
  1 <= d /\ walk_ok value x_val max_val x y d /\
  (exists v, sample_at value x_val max_val x y (d - 1) = Ret v /\
             (light_val <= v)%Q) /\
  (forall j, 0 <= j < d - 1 ->
             exists v, sample_at value x_val max_val x y j = Ret v /\
                       (v < light_val)%Q).
Proof.
  intros Hl H. destruct (brightness_Some _ _ _ _ _ _ _ H) as [_ Hd].
  destruct (Hd Hl) as [Hd1 Hd2]. split; [exact Hd1|]. split; [exact Hd2|].
  unfold _brightness in H.
  destruct (_brightness_loop _ _ _ _ _ _ _ _ _) as [d'|e|] eqn:E;
    try discriminate.
  2:{ destruct e; discriminate. }
  inversion H; subst d'.
  destruct (brightness_loop_stop _ _ _ _ _ _ _ _ _ _ E Hl)
    as (k & Hk & Hdk & Hstop & Hbefore).
  replace (d - 1) with k by lia. split; assumption.
Qed.

(** A probe started at non-negative indices whose ray never meets the
    threshold inside the array fails. *)
Lemma brightness_None_of_not_reaches value x y light_val x_val max_val :
  (0 < light_val)%Q -> 0 <= x -> 0 <= y ->
  ~ reaches value x_val max_val x y light_val ->
  _brightness value x y light_val x_val max_val = Ret None.
Proof.
  intros Hl Hx Hy Hn.
  destruct (brightness_returns value x y light_val x_val max_val) as [[d|] E];
    [|exact E].
  exfalso. apply Hn.
  destruct (brightness_Some_first _ _ _ _ _ _ _ Hl E)
    as (Hd & Hok & (v & Ev & Hv) & _).
  exists (d - 1), v. split; [lia|].
  unfold walk_ok in Hok. unfold walk_pos.
  destruct max_val, x_val; simpl; repeat split; try lia; assumption.
Qed.

(** ** [zoom_fit_zero] *)

(** The first index is read as (x, y), the later ones as (y, x). *)
Example bounding_box_unpacking :
  bounding_box (1, 5) [(7, 2)] = (2, 1, 7, 5).
Proof. reflexivity. Qed.

Lemma zoom_probes_Ret value x_max x_min y_max y_min light_val :
  exists a b c d,
    zoom_probes value (x_max, x_min, y_max, y_min) light_val = Ret (a, b, c, d)
    /\ _brightness value x_min y_min light_val true false = Ret a
    /\ _brightness value x_max y_min light_val false false = Ret b
    /\ _brightness value x_max y_max light_val true true = Ret c
    /\ _brightness value x_min y_max light_val false true = Ret d.
Proof.
  destruct (brightness_returns value x_min y_min light_val true false) as [a Ea].
  destruct (brightness_returns value x_max y_min light_val false false) as [b Eb].
  destruct (brightness_returns value x_max y_max light_val true true) as [c Ec].
  destruct (brightness_returns value x_min y_max light_val false true) as [d Ed].
  exists a, b, c, d. unfold zoom_probes. rewrite Ea, Eb, Ec, Ed.
  repeat split.
Qed.


Lemma py_div_Ret_inv a b q : py_div a b = Ret q -> ~ (b == 0)%Q /\ q = (a / b)%Q.
Proof.
  unfold py_div. destruct (Qeq_bool b 0) eqn:E; [discriminate|].
  intros H. inversion H. split; [|reflexivity].
  intros Hb. apply Qeq_bool_iff in Hb. congruence.
Qed.

Lemma inject_Z_pos k : 1 <= k -> (0 < inject_Z k)%Q.
Proof. intros H. unfold Qlt, inject_Z. simpl. lia. Qed.


Lemma some_walk_runs_off_fails value b light_val :
  (0 < light_val)%Q ->
  some_walk_runs_off value b light_val -> some_walk_fails value b light_val.
Proof.
  intros Hl. destruct b as [[[x_max x_min] y_max] y_min].
  unfold some_walk_runs_off, some_walk_fails.
  intros [(Hx & Hy & H)|[(Hx & Hy & H)|[(Hx & Hy & H)|(Hx & Hy & H)]]].
  - left. apply brightness_None_of_not_reaches; assumption.
  - right. left. apply brightness_None_of_not_reaches; assumption.
  - right. right. left. apply brightness_None_of_not_reaches; assumption.
  - right. right. right. apply brightness_None_of_not_reaches; assumption.
Qed.

(** The two early returns of [zoom_fit_zero]: it hands back
    [(re_range, im_range, step)] as they came, without raising, when the
    index list is empty and when one of the four probes returns [None]; a
    probe returns [None] in particular when, for a positive threshold, it
    runs off the grid before a sample reaches [light_val]; and, for a
    positive threshold, the result is the unchanged input only when the
    list is empty or a probe returned [None]. *)
Theorem zoom_unchanged (zero_index : list point) (value : grid)
  (re_range im_range : Q * Q) (step light_val : Q) :
  (zero_index = [] ->
   zoom_fit_zero zero_index value re_range im_range step light_val
   = Ret (re_range, im_range, step)) /\
  (forall p0 rest,
     zero_index = p0 :: rest ->
     some_walk_fails value (bounding_box p0 rest) light_val ->
     zoom_fit_zero zero_index value re_range im_range step light_val
     = Ret (re_range, im_range, step)) /\
  (forall p0 rest,
     zero_index = p0 :: rest ->
     (0 < light_val)%Q ->
     some_walk_runs_off value (bounding_box p0 rest) light_val ->
     zoom_fit_zero zero_index value re_range im_range step light_val
     = Ret (re_range, im_range, step)) /\
  ((0 < light_val)%Q ->
   zoom_fit_zero zero_index value re_range im_range step light_val
   = Ret (re_range, im_range, step) ->
   zero_index = [] \/
   exists p0 rest,
     zero_index = p0 :: rest /\
     some_walk_fails value (bounding_box p0 rest) light_val).
Proof.
  assert (Hfails : forall p0 rest,
    zero_index = p0 :: rest ->
    some_walk_fails value (bounding_box p0 rest) light_val ->
    zoom_fit_zero zero_index value re_range im_range step light_val
    = Ret (re_range, im_range, step)).
  { intros p0 rest -> Hfail. unfold zoom_fit_zero.
    destruct (bounding_box p0 rest) as [[[x_max x_min] y_max] y_min].
    destruct (zoom_probes_Ret value x_max x_min y_max y_min light_val)
      as (a & b & c & d & E & Ea & Eb & Ec & Ed).
    rewrite E. simpl. unfold some_walk_fails in Hfail.
    rewrite Ea, Eb, Ec, Ed in Hfail.
    destruct a, b, c, d; try reflexivity.
    destruct Hfail as [H|[H|[H|H]]]; discriminate H. }
  split; [|split; [|split]].
  - intros ->. reflexivity.
  - exact Hfails.
  - intros p0 rest Hz Hl Hoff. apply (Hfails p0 rest Hz).
    apply some_walk_runs_off_fails; assumption.
  - intros Hl Hret. destruct zero_index as [|p0 rest]; [left; reflexivity|].
    right. exists p0, rest. split; [reflexivity|].
    unfold zoom_fit_zero in Hret. unfold some_walk_fails.
    destruct (bounding_box p0 rest) as [[[x_max x_min] y_max] y_min].
    destruct (zoom_probes_Ret value x_max x_min y_max y_min light_val)
      as (a & b & c & d & E & Ea & Eb & Ec & Ed).
    rewrite E in Hret. simpl in Hret. rewrite Ea, Eb, Ec, Ed.
    destruct a as [a|]; [|tauto]. destruct b as [b|]; [|tauto].
    destruct c as [c|]; [|tauto]. destruct d as [d|]; [|tauto].
    exfalso. unfold zoom_bounds in Hret.
    destruct (py_div (snd re_range - fst re_range) step) as [num| |] eqn:E1;
      try discriminate.
    apply py_div_Ret_inv in E1. destruct E1 as [Hstep _].
    simpl in Hret. destruct (py_div _ num) as [new_step| |]; try discriminate.
    simpl in Hret. destruct re_range as [re0 re1]. simpl in Hret.
    injection Hret as Hlow Hup Him Hs.
    apply brightness_Some in Ea. destruct Ea as [_ Ha].
    destruct (Ha Hl) as [Ha1 Ha2]. unfold walk_ok in Ha2.
    assert (Hq : (re0 + inject_Z (x_min - a + 1) * step == re0)%Q)
      by (rewrite Hlow; reflexivity).
    assert (Hz : (inject_Z (x_min - a + 1) * step == 0)%Q) by lra.
    apply Qmult_integral in Hz. destruct Hz as [Hz|Hz]; [|contradiction].
    pose proof (inject_Z_pos (x_min - a + 1) ltac:(lia)). lra.
Qed.

Lemma row_width_le value y :
  rectangular value -> row_width value y <= snd (shape value).
Proof.
  intros Hr. unfold row_width.
  destruct (py_index value y) as [row| |] eqn:E.
  - rewrite (rectangular_row _ _ _ Hr E). lia.
  - simpl. lia.
  - simpl. lia.
Qed.




Example winding_num_hue5 : winding_num hue5 ((0, 0), (4, 4)) = Ret 1.
Proof. vm_compute. reflexivity. Qed.

Example zeros_hue5_indices :
  exists zero_list,
    zeros hue5 value5 (-2, 2)%Q (-2, 2)%Q None 0.01
    = Ret (zero_list, [(2, 2)]).
Proof. eexists. vm_compute. reflexivity. Qed.

Example winding_calls_hue5 :
  winding_calls (snd (zeros_search hue5 value5 None 0.01))
  = [((0, 0), (4, 4)); ((0, 0), (4, 2)); ((0, 2), (4, 4))].
Proof. vm_compute. reflexivity. Qed.

Lemma not_reaches_value5_left : ~ reaches value5 true false 2 2 0.9.
Proof.
  intros (k & v & Hk & Hx & _ & Hs & Hv).
  unfold walk_pos in Hx. simpl in Hx.
  assert (Hcases : k = 0 \/ k = 1 \/ k = 2) by lia.
  destruct Hcases as [-> | [-> | ->]]; vm_compute in Hs; inversion Hs; subst v;
    apply Hv; reflexivity.
Defined.

Lemma zoom_unchanged_witness :
  zoom_fit_zero [] value5 (-2, 2)%Q (-2, 2)%Q 1 0.6
  = Ret ((-2, 2), (-2, 2), 1)%Q /\
  zoom_fit_zero [(2, 2)] value5 (-2, 2)%Q (-2, 2)%Q 1 0.6
  = Ret ((-2, 2), (-2, 2), 1)%Q /\
  zoom_fit_zero [(2, 2)] value5 (-2, 2)%Q (-2, 2)%Q 1 0.9
  = Ret ((-2, 2), (-2, 2), 1)%Q /\
  ([(2, 2)] = [] \/
   exists p0 rest,
     [(2, 2)] = p0 :: rest /\
     some_walk_fails value5 (bounding_box p0 rest) 0.6).
Proof.
  split; [|split; [|split]].
  - apply (proj1 (zoom_unchanged [] value5 (-2, 2)%Q (-2, 2)%Q 1 0.6)).
    reflexivity.
  - apply (proj1 (proj2 (zoom_unchanged [(2, 2)] value5
                           (-2, 2)%Q (-2, 2)%Q 1 0.6)) (2, 2) []).
    + reflexivity.
    + left. vm_compute. reflexivity.
  - apply (proj1 (proj2 (proj2 (zoom_unchanged [(2, 2)] value5
                                  (-2, 2)%Q (-2, 2)%Q 1 0.9))) (2, 2) []).
    + reflexivity.
    + reflexivity.
    + unfold some_walk_runs_off, bounding_box. cbn [fold_left fst snd].
      left. split; [lia|]. split; [lia|]. exact not_reaches_value5_left.
  - apply (proj2 (proj2 (proj2 (zoom_unchanged [(2, 2)] value5
                                  (-2, 2)%Q (-2, 2)%Q 1 0.6)))).
    + reflexivity.
    + vm_compute. reflexivity.
Defined.


(** ** [branch_cut] *)

(** C7.  When neither axis lies strictly inside the sampled window, that is
    when neither [im_range[0] < 0 < im_range[1]] nor
    [re_range[0] < 0 < re_range[1]] holds, [branch_cut] returns [False];
    it does so for every pair of arrays, empty ones included, and for every
    step: no sample is read and no index is computed. *)
Theorem branch_cut_axes_outside (hue value : grid) (re_range im_range : Q * Q)
  (step : Q)
  (Hre_axis : ~ (fst im_range < 0 /\ 0 < snd im_range)%Q)
  (Him_axis : ~ (fst re_range < 0 /\ 0 < snd re_range)%Q) :
  branch_cut hue value re_range im_range step = Ret false.
Proof.
  unfold branch_cut. destruct (shape hue) as [row col].
  destruct (Qltb (fst im_range) 0 && Qltb 0 (snd im_range)) eqn:E1.
  { exfalso. apply Hre_axis. apply andb_prop in E1.
    destruct E1 as [Ea Eb]. apply Qltb_lt in Ea. apply Qltb_lt in Eb.
    split; assumption. }
  destruct (Qltb (fst re_range) 0 && Qltb 0 (snd re_range)) eqn:E2.
  { exfalso. apply Him_axis. apply andb_prop in E2.
    destruct E2 as [Ea Eb]. apply Qltb_lt in Ea. apply Qltb_lt in Eb.
    split; assumption. }
  reflexivity.
Qed.

Lemma branch_cut_axes_outside_witness :
  branch_cut [] [] (1, 21)%Q (1, 21)%Q 0.05 = Ret false.
Proof.
  apply (branch_cut_axes_outside [] [] (1, 21)%Q (1, 21)%Q 0.05).
  - intros [H _]. discriminate H.
  - intros [H _]. discriminate H.
Defined.

(** With an axis inside the window the arrays are read: on a 1 x 1 array
    the reads two samples away from the axis raise. *)
Example branch_cut_axis_inside_reads :
  branch_cut [[1 # 2]%Q] [[1 # 2]%Q] (-1, 1)%Q (-1, 1)%Q 1 = Raise IndexError.
Proof. vm_compute. reflexivity. Qed.

(** ** Instances on the 5 x 5 sample *)

Lemma search_in_range_hue5 : search_in_range hue5 value5 None.
Proof.
  unfold search_in_range. split; [repeat constructor|].
  split; [repeat constructor|]. split; [reflexivity|]. simpl. lia.
Defined.

Lemma zeros_indices_below_tol_witness :
  (exists zero_list index_list,
     zeros hue5 value5 (-2, 2)%Q (-2, 2)%Q None 0.01
     = Ret (zero_list, index_list)) /\
  (inside_box (start_rect hue5 None) (2, 2) /\
   exists v, getitem2 value5 2 2 = Ret v /\ (v < 0.01)%Q).
Proof.
  split.
  - apply (proj1 (zeros_indices_below_tol hue5 value5
                    (-2, 2)%Q (-2, 2)%Q None 0.01)).
    exact search_in_range_hue5.
  - eapply (proj2 (zeros_indices_below_tol hue5 value5
                     (-2, 2)%Q (-2, 2)%Q None 0.01) _ [(2, 2)] 2 2).
    + vm_compute. reflexivity.
    + left.
Defined.

Lemma winding_num_only_on_wide_witness :
  Forall wide (winding_calls (snd (zeros_search hue5 value5 None 0.01))).
Proof.
  apply (winding_num_only_on_wide hue5 value5 None 0.01).
  simpl. lia.
Defined.

Lemma zeros_complex_values_witness :
  (exists zero_list index_list,
     zeros hue5 value5 (-2, 2)%Q (-3, 7)%Q None 0.01
     = Ret (zero_list, index_list)) /\
  exists zero_list,
    zeros hue5 value5 (-2, 2)%Q (-3, 7)%Q None 0.01
    = Ret (zero_list, [(2, 2)]) /\
    Forall2
      (fun z index =>
         let step :=
           ((snd (-2, 2) - fst (-2, 2)) / inject_Z (fst (shape hue5) - 1))%Q in
         (re z == fst (-2, 2) + inject_Z (fst index) * step)%Q /\
         (im z == fst (-3, 7) + inject_Z (snd index) * step)%Q)
      zero_list [(2, 2)].
Proof.
  split.
  - apply (proj1 (zeros_complex_values hue5 value5
                    (-2, 2)%Q (-3, 7)%Q None 0.01)).
    exact search_in_range_hue5.
  - eexists. split.
    + vm_compute. reflexivity.
    + apply (proj2 (zeros_complex_values hue5 value5
                      (-2, 2)%Q (-3, 7)%Q None 0.01)).
      vm_compute. reflexivity.
Defined.

(** * Further properties *)

(** ** [_winding_path] *)

Ltac to_Qprop :=
  repeat match goal with
  | H : Qgtb _ _ = true |- _ => apply Qgtb_gt in H
  | H : Qgtb _ _ = false |- _ => apply Qgtb_le in H
  | H : Qltb _ _ = true |- _ => apply Qltb_lt in H
  | H : Qltb _ _ = false |- _ => apply Qltb_ge in H
  end.


(** The signed difference is the plain difference plus a whole number of
    turns. *)
Lemma winding_path_split a b :
  (_winding_path a b == a - b + inject_Z (wrap_count a b))%Q.
Proof.
  rewrite winding_path_cases. unfold wrap_count.
  destruct (Qgtb b lim1_w && Qltb a lim2_w).
  - change (inject_Z 1) with 1%Q. ring.
  - destruct (Qltb b lim2_w && Qgtb a lim1_w).
    + change (inject_Z (-1)) with (- (1))%Q. ring.
    + change (inject_Z 0) with 0%Q. ring.
Qed.

(** X2.  For hue values between 0 and 1 the signed difference of a pair
    never exceeds 0.7 in absolute value: a jump from above 0.7 to below 0.3,
    or back, is counted as a short step through 0. *)
Theorem winding_path_bounded (a b : Q)
  (Ha : (0 <= a <= 1)%Q) (Hb : (0 <= b <= 1)%Q) :
  (- (0.7) <= _winding_path a b <= 0.7)%Q.
Proof.
  rewrite winding_path_cases. unfold lim1_w, lim2_w.
  destruct (Qgtb b 0.7) eqn:E1, (Qltb a 0.3) eqn:E2,
           (Qltb b 0.3) eqn:E3, (Qgtb a 0.7) eqn:E4;
    simpl; to_Qprop; lra.
Qed.

Lemma winding_path_bounded_witness :
  (- (0.7) <= _winding_path 0.1 0.9 <= 0.7)%Q.
Proof.
  apply (winding_path_bounded 0.1 0.9).
  - split; intros H; discriminate H.
  - split; intros H; discriminate H.
Defined.

(** ** [winding_num] *)

Lemma normalize_swap x1 y1 x2 y2 :
  normalize ((x2, y2), (x1, y1)) = normalize ((x1, y1), (x2, y2)) /\
  normalize ((x2, y1), (x1, y2)) = normalize ((x1, y1), (x2, y2)) /\
  normalize ((x1, y2), (x2, y1)) = normalize ((x1, y1), (x2, y2)).
Proof.
  unfold normalize.
  destruct (Z.ltb_spec x2 x1), (Z.ltb_spec x1 x2),
           (Z.ltb_spec y2 y1), (Z.ltb_spec y1 y2);
    repeat split; try reflexivity; try lia;
    repeat f_equal; lia.
Qed.

(** X3.  [winding_num] does not depend on which two opposite corners of the
    rectangle are given, nor on their order. *)
Theorem winding_num_any_corners (hue : grid) (x1 y1 x2 y2 : Z) :
  winding_num hue ((x2, y2), (x1, y1)) = winding_num hue ((x1, y1), (x2, y2)) /\
  winding_num hue ((x2, y1), (x1, y2)) = winding_num hue ((x1, y1), (x2, y2)) /\
  winding_num hue ((x1, y2), (x2, y1)) = winding_num hue ((x1, y1), (x2, y2)).
Proof.
  destruct (normalize_swap x1 y1 x2 y2) as (E1 & E2 & E3).
  unfold winding_num. rewrite E1, E2, E3. repeat split.
Qed.

Lemma py_round_integer w n : (w == inject_Z n)%Q -> py_round w = n.
Proof.
  intros H. unfold py_round.
  assert (Hf : Qfloor w = n) by (rewrite H; apply Qfloor_Z).
  rewrite Hf.
  assert (Hd : Qltb (w - inject_Z n) (1 # 2) = true)
    by (apply Qltb_lt; lra).
  rewrite Hd. reflexivity.
Qed.

Lemma hue_at_Ret hue y x v : getitem2 hue y x = Ret v -> hue_at hue y x = v.
Proof. unfold hue_at. intros ->. reflexivity. Qed.

Lemma getitem2_hue_at hue y x :
  rectangular hue ->
  0 <= y < fst (shape hue) -> 0 <= x < snd (shape hue) ->
  getitem2 hue y x = Ret (hue_at hue y x).
Proof.
  intros Hr Hy Hx. destruct (getitem2_in_grid hue y x Hr Hy Hx) as [v E].
  rewrite (hue_at_Ret _ _ _ _ E). exact E.
Qed.

(** The horizontal loop: the plain differences telescope along both edges and
    the wraps add up. *)
Lemma winding_rows_sum hue y1 y2 n :
  rectangular hue ->
  0 <= y1 < fst (shape hue) -> 0 <= y2 < fst (shape hue) ->
  forall x1 acc,
    0 <= x1 -> x1 + Z.of_nat n < snd (shape hue) ->
    exists acc',
      for_acc (seqZ x1 (Z.of_nat n)) (winding_row hue y1 y2) acc = Ret acc' /\
      (acc' == acc
              + (hue_at hue y2 (x1 + Z.of_nat n) - hue_at hue y2 x1)
              + (hue_at hue y1 x1 - hue_at hue y1 (x1 + Z.of_nat n))
              + inject_Z (sum_over (seqZ x1 (Z.of_nat n))
                            (row_wraps hue y1 y2)))%Q.
Proof.
  intros Hr Hy1 Hy2. induction n as [|n IH]; intros x1 acc Hx1 Hx2.
  - exists acc. split; [reflexivity|]. simpl.
    replace (x1 + Z.of_nat 0) with x1 by lia. change (inject_Z 0) with 0%Q. ring.
  - rewrite seqZ_cons by lia. simpl for_acc. unfold winding_row at 1.
    rewrite !getitem2_hue_at by (assumption || lia). simpl.
    replace (Z.pred (Z.of_nat (S n))) with (Z.of_nat n) by lia.
    destruct (IH (Z.succ x1)
                (acc + _winding_path (hue_at hue y2 (x1 + 1)) (hue_at hue y2 x1)
                 + _winding_path (hue_at hue y1 x1) (hue_at hue y1 (x1 + 1)))%Q
                ltac:(lia) ltac:(lia)) as (acc' & E & Hacc).
    exists acc'. split; [exact E|]. rewrite Hacc.
    rewrite !winding_path_split.
    replace (Z.succ x1 + Z.of_nat n) with (x1 + Z.of_nat (S n)) by lia.
    replace (Z.succ x1) with (x1 + 1) by lia.
    cbn [sum_over fold_right].
    fold (sum_over (seqZ (x1 + 1) (Z.of_nat n)) (row_wraps hue y1 y2)).
    unfold row_wraps. rewrite !inject_Z_plus. ring.
Qed.

(** The vertical loop, likewise. *)
Lemma winding_cols_sum hue x1 x2 n :
  rectangular hue ->
  0 <= x1 < snd (shape hue) -> 0 <= x2 < snd (shape hue) ->
  forall y1 acc,
    0 <= y1 -> y1 + Z.of_nat n < fst (shape hue) ->
    exists acc',
      for_acc (seqZ y1 (Z.of_nat n)) (winding_col hue x1 x2) acc = Ret acc' /\
      (acc' == acc
              + (hue_at hue y1 x2 - hue_at hue (y1 + Z.of_nat n) x2)
              + (hue_at hue (y1 + Z.of_nat n) x1 - hue_at hue y1 x1)
              + inject_Z (sum_over (seqZ y1 (Z.of_nat n))
                            (col_wraps hue x1 x2)))%Q.
Proof.
  intros Hr Hx1 Hx2. induction n as [|n IH]; intros y1 acc Hy1 Hy2.
  - exists acc. split; [reflexivity|]. simpl.
    replace (y1 + Z.of_nat 0) with y1 by lia. change (inject_Z 0) with 0%Q. ring.
  - rewrite seqZ_cons by lia. simpl for_acc. unfold winding_col at 1.
    rewrite !getitem2_hue_at by (assumption || lia). simpl.
    replace (Z.pred (Z.of_nat (S n))) with (Z.of_nat n) by lia.
    destruct (IH (Z.succ y1)
                (acc + _winding_path (hue_at hue y1 x2) (hue_at hue (y1 + 1) x2)
                 + _winding_path (hue_at hue (y1 + 1) x1) (hue_at hue y1 x1))%Q
                ltac:(lia) ltac:(lia)) as (acc' & E & Hacc).
    exists acc'. split; [exact E|]. rewrite Hacc.
    rewrite !winding_path_split.
    replace (Z.succ y1 + Z.of_nat n) with (y1 + Z.of_nat (S n)) by lia.
    replace (Z.succ y1) with (y1 + 1) by lia.
    cbn [sum_over fold_right].
    fold (sum_over (seqZ (y1 + 1) (Z.of_nat n)) (col_wraps hue x1 x2)).
    unfold col_wraps. rewrite !inject_Z_plus. ring.
Qed.

Lemma winding_num_counts_wraps_aux (hue : grid) (r : rect)
  (Hrect : rectangular hue) (Hin : in_grid (shape hue) r) :
  winding_num hue r = Ret (boundary_wraps hue r).
Proof.
  destruct r as [[x1 y1] [x2 y2]]. destruct Hin as (Hx1 & Hx2 & Hy1 & Hy2).
  unfold winding_num, boundary_wraps. rewrite normalize_ordered by lia.
  unfold zrange.
  destruct (winding_rows_sum hue y1 y2 (Z.to_nat (x2 - x1)) Hrect
              ltac:(lia) ltac:(lia) x1 0%Q ltac:(lia) ltac:(lia))
    as (w1 & E1 & Hw1).
  replace (Z.of_nat (Z.to_nat (x2 - x1))) with (x2 - x1) in * by lia.
  rewrite E1. simpl obind.
  destruct (winding_cols_sum hue x1 x2 (Z.to_nat (y2 - y1)) Hrect
              ltac:(lia) ltac:(lia) y1 w1 ltac:(lia) ltac:(lia))
    as (w2 & E2 & Hw2).
  replace (Z.of_nat (Z.to_nat (y2 - y1))) with (y2 - y1) in * by lia.
  rewrite E2. simpl obind. f_equal. apply py_round_integer.
  rewrite Hw2, Hw1. rewrite inject_Z_plus.
  replace (x1 + (x2 - x1)) with x2 by lia.
  replace (y1 + (y2 - y1)) with y2 by lia. ring.
Qed.

(** X4.  In exact arithmetic the plain differences cancel around the closed
    boundary, so on a rectangle inside the array [winding_num] returns the
    number of forward wraps minus the number of backward wraps among the
    pairs it walks.  A forward wrap is a pair that the walk enters at a hue
    above 0.7 and leaves at a hue below 0.3; a backward wrap is a pair that
    it enters below 0.3 and leaves above 0.7. *)
Theorem winding_num_counts_wraps (hue : grid) (r : rect)
  (Hrect : rectangular hue) (Hin : in_grid (shape hue) r) :
  winding_num hue r = Ret (boundary_wraps hue r).
Proof. exact (winding_num_counts_wraps_aux hue r Hrect Hin). Qed.

Lemma winding_num_counts_wraps_witness :
  winding_num hue5 ((0, 0), (4, 4)) = Ret (boundary_wraps hue5 ((0, 0), (4, 4))).
Proof.
  apply (winding_num_counts_wraps hue5 ((0, 0), (4, 4))).
  - repeat constructor.
  - simpl. lia.
Defined.

Lemma for_acc_raises_only {S} l (body : Z -> S -> outcome S) acc e0 :
  (forall i a e, body i a = Raise e -> e = e0) ->
  forall e, for_acc l body acc = Raise e -> e = e0.
Proof.
  intros H. revert acc. induction l as [|i l IH]; intros acc e; simpl.
  - discriminate.
  - destruct (body i acc) as [a|e'|] eqn:E; simpl.
    + apply IH.
    + intros H'. inversion H'; subst. exact (H _ _ _ E).
    + discriminate.
Qed.

Lemma for_acc_Ret_each {S} l (body : Z -> S -> outcome S) acc r :
  for_acc l body acc = Ret r ->
  forall i, i ∈ l -> exists a a', body i a = Ret a'.
Proof.
  revert acc. induction l as [|i l IH]; intros acc H j Hj.
  - inversion Hj.
  - simpl in H. destruct (body i acc) as [a| |] eqn:E; try discriminate.
    simpl in H. apply elem_of_cons in Hj. destruct Hj as [->|Hj].
    + exists acc, a. exact E.
    + exact (IH _ H j Hj).
Qed.

Ltac getitem_raises :=
  repeat match goal with
  | |- context [obind (getitem2 ?a ?y ?x) _] =>
    let E := fresh "E" in
    destruct (getitem2 a y x) eqn:E; simpl;
    [ | intros H'; inversion H'; subst; exact (getitem2_raises _ _ _ _ E)
      | discriminate ]
  end.

Lemma winding_row_raises hue y1 y2 i w e :
  winding_row hue y1 y2 i w = Raise e -> e = IndexError.
Proof. unfold winding_row. getitem_raises. discriminate. Qed.

Lemma winding_col_raises hue x1 x2 j w e :
  winding_col hue x1 x2 j w = Raise e -> e = IndexError.
Proof. unfold winding_col. getitem_raises. discriminate. Qed.

Lemma winding_num_raises hue r e :
  winding_num hue r = Raise e -> e = IndexError.
Proof.
  unfold winding_num. destruct (normalize r) as [[x1 y1] [x2 y2]].
  destruct (for_acc (zrange x1 x2) _ _) as [w| |] eqn:E1; simpl.
  - destruct (for_acc (zrange y1 y2) _ _) as [w'| |] eqn:E2; simpl;
      try discriminate.
    intros H. inversion H; subst.
    revert E2. apply for_acc_raises_only. apply winding_col_raises.
  - intros H. inversion H; subst.
    revert E1. apply for_acc_raises_only. apply winding_row_raises.
  - discriminate.
Qed.

(** X5.  [winding_num] raises [IndexError] whenever a rectangle with
    ordered non-negative corners and at least one pair to walk reaches
    beyond the last column or the last row: the far corner is read in the
    first loop that runs, before the sum is rounded. *)
Theorem winding_num_out_of_range (hue : grid) (x1 y1 x2 y2 : Z)
  (Hrect : rectangular hue)
  (Hx : 0 <= x1 <= x2) (Hy : 0 <= y1 <= y2)
  (Hpairs : x1 < x2 \/ y1 < y2)
  (Hout : snd (shape hue) <= x2 \/ fst (shape hue) <= y2) :
  winding_num hue ((x1, y1), (x2, y2)) = Raise IndexError.
Proof.
  assert (Hcorner : forall v, getitem2 hue y2 x2 <> Ret v).
  { intros v E. apply getitem2_Ret_lt in E. destruct E as [Hw Hl].
    pose proof (row_width_le hue y2 Hrect). simpl in *. lia. }
  destruct (winding_num hue ((x1, y1), (x2, y2))) as [w|e|] eqn:E.
  - exfalso. unfold winding_num in E. rewrite normalize_ordered in E by lia.
    destruct (for_acc (zrange x1 x2) _ _) as [w1| |] eqn:E1;
      try discriminate.
    simpl in E.
    destruct (for_acc (zrange y1 y2) _ _) as [w2| |] eqn:E2;
      try discriminate.
    destruct (Z_lt_le_dec x1 x2) as [Hlt|Hge].
    + destruct (for_acc_Ret_each _ _ _ _ E1 (x2 - 1)) as (a & a' & Ea).
      { apply elem_of_seqZ. lia. }
      unfold winding_row in Ea.
      replace (x2 - 1 + 1) with x2 in Ea by lia.
      destruct (getitem2 hue y2 x2) as [v| |] eqn:Ev; try discriminate.
      exact (Hcorner v eq_refl).
    + assert (x1 = x2) by lia. subst x1.
      destruct (for_acc_Ret_each _ _ _ _ E2 (y2 - 1)) as (a & a' & Ea).
      { apply elem_of_seqZ. lia. }
      unfold winding_col in Ea.
      replace (y2 - 1 + 1) with y2 in Ea by lia.
      destruct (getitem2 hue (y2 - 1) x2) as [u| |]; try discriminate.
      simpl in Ea.
      destruct (getitem2 hue y2 x2) as [v| |] eqn:Ev; try discriminate.
      exact (Hcorner v eq_refl).
  - f_equal. exact (winding_num_raises _ _ _ E).
  - exfalso. exact (winding_num_never_out_of_fuel _ _ E).
Qed.

Lemma winding_num_out_of_range_witness :
  winding_num hue5 ((0, 0), (5, 4)) = Raise IndexError.
Proof.
  apply (winding_num_out_of_range hue5 0 0 5 4).
  - repeat constructor.
  - lia.
  - lia.
  - left. lia.
  - left. simpl. lia.
Defined.

(** ** [_calc_zeros] and [zeros] *)

Lemma only_grows_mbind {A B} (m : M A) (k : A -> M B) :
  only_grows m -> (forall a, only_grows (k a)) -> only_grows (mbind m k).
Proof.
  intros Hm Hk s. unfold mbind. destruct (Hm s) as [Hs [c Hc]].
  destruct (m s) as [[a|e|] s1]; simpl in *.
  - destruct (Hk a s1) as [Hs' [c' Hc']]. split.
    + set_solver.
    + exists (c ++ c'). rewrite Hc', Hc, app_assoc. reflexivity.
  - split; [exact Hs|]. exists c. exact Hc.
  - split; [exact Hs|]. exists c. exact Hc.
Qed.

Lemma only_grows_check_point value tol x y :
  only_grows (check_point value tol x y).
Proof.
  intros s. unfold check_point, mbind, lift.
  destruct (getitem2 value y x) as [v| |]; simpl.
  - destruct (Qltb v tol); simpl.
    + split; [set_solver|]. exists []. rewrite app_nil_r. reflexivity.
    + split; [set_solver|]. exists []. rewrite app_nil_r. reflexivity.
  - split; [set_solver|]. exists []. rewrite app_nil_r. reflexivity.
  - split; [set_solver|]. exists []. rewrite app_nil_r. reflexivity.
Qed.

(** X6.  [_calc_zeros] never removes an index from the set it is given and
    never rewrites the record of its calls: whatever the outcome, an
    exception included, the set afterwards contains the set before. *)
Theorem calc_zeros_only_adds (hue value : grid) (tol : Q) (r : rect)
  (s : cz_state) :
  zero_index s
    ⊆ zero_index (snd (_calc_zeros (calc_fuel r) hue value r tol s)) /\
  exists calls,
    winding_calls (snd (_calc_zeros (calc_fuel r) hue value r tol s))
    = winding_calls s ++ calls.
Proof.
  revert s. change (only_grows (_calc_zeros (calc_fuel r) hue value r tol)).
  apply (calc_zeros_rule (fun A m => only_grows m) (fun _ => True)
           hue value tol).
  - intros s. simpl. split; [set_solver|]. exists []. rewrite app_nil_r.
    reflexivity.
  - intros A B m k. apply only_grows_mbind.
  - intros x1 y1 x2 y2 _ _. tauto.
  - intros r0 _ s. simpl. split; [set_solver|]. exists [r0]. reflexivity.
  - intros. apply only_grows_check_point.
  - exact Logic.I.
  - unfold calc_fuel. lia.
Qed.

Lemma raises_only_mbind {A B} (m : M A) (k : A -> M B) :
  raises_only_IndexError m -> (forall a, raises_only_IndexError (k a)) ->
  raises_only_IndexError (mbind m k).
Proof.
  intros Hm Hk s e. unfold mbind. specialize (Hm s).
  destruct (m s) as [[a|e'|] s1]; simpl in *.
  - apply Hk.
  - intros H. inversion H; subst. apply Hm. reflexivity.
  - discriminate.
Qed.

Lemma calc_zeros_raises hue value tol r :
  raises_only_IndexError (_calc_zeros (calc_fuel r) hue value r tol).
Proof.
  apply (calc_zeros_rule (fun A m => raises_only_IndexError m) (fun _ => True)
           hue value tol).
  - intros s e. discriminate.
  - intros A B m k. apply raises_only_mbind.
  - intros x1 y1 x2 y2 _ _. tauto.
  - intros r0 _ s e. simpl. apply winding_num_raises.
  - intros r0 x y _ _ s e. unfold check_point, mbind, lift.
    destruct (getitem2 value y x) as [v| |] eqn:E; simpl.
    + destruct (Qltb v tol); discriminate.
    + intros H. inversion H; subst. exact (getitem2_raises _ _ _ _ E).
    + discriminate.
  - exact Logic.I.
  - unfold calc_fuel. lia.
Qed.

(** X7.  [zeros] raises [ZeroDivisionError] only on a hue array with
    exactly one row, and only after the search has returned: the search
    itself never raises it, and the only division of [zeros] is the one by
    [row - 1]. *)
Theorem zeros_exceptions (hue value : grid) (re_range im_range : Q * Q)
  (r : option rect) (tol : Q) :
  zeros hue value re_range im_range r tol = Raise ZeroDivisionError ->
  fst (shape hue) = 1 /\ fst (zeros_search hue value r tol) = Ret tt.
Proof.
  unfold zeros. simpl.
  pose proof (calc_zeros_raises hue value tol (start_rect hue r) empty_state)
    as Hr.
  change (forall e, fst (zeros_search hue value r tol) = Raise e ->
                    e = IndexError) in Hr.
  destruct (zeros_search hue value r tol) as [[[]|e'|] s]; simpl in *.
  - destruct (Z.of_nat (length hue) - 1 =? 0) eqn:E; [|discriminate].
    intros _. apply Z.eqb_eq in E. split; [lia|reflexivity].
  - intros H. inversion H; subst.
    specialize (Hr ZeroDivisionError eq_refl). discriminate Hr.
  - discriminate.
Qed.

Lemma zeros_exceptions_witness :
  fst (shape [[0; 0]%Q]) = 1 /\
  fst (zeros_search [[0; 0]%Q] [[0; 0]%Q] None 0.01) = Ret tt.
Proof.
  apply (zeros_exceptions [[0; 0]%Q] [[0; 0]%Q] (0, 1)%Q (0, 1)%Q None 0.01).
  vm_compute. reflexivity.
Defined.



Lemma adds_mbind (m m' : M unit) F G :
  adds m F -> adds m' G -> adds (m ;! m') (fun p => F p \/ G p).
Proof.
  intros Hm Hm' s. unfold mbind.
  destruct (Hm s) as (s1 & E1 & Hc1 & Hz1). rewrite E1.
  destruct (Hm' s1) as (s2 & E2 & Hc2 & Hz2).
  exists s2. split; [exact E2|]. split; [congruence|].
  intros p. rewrite Hz2, Hz1. tauto.
Qed.

(** X9.  When [winding_num] is 0 on a rectangle that is not a base case,
    [_calc_zeros] does not recurse: it scans the four edges, returns, and
    adds exactly the scanned edge points whose brightness is below [tol].
    The scan leaves out the far corner [(x2, y2)]. *)
Theorem zero_winding_edge_scan (hue value : grid) (tol : Q) (fuel : nat)
  (x1 y1 x2 y2 : Z) (s : cz_state)
  (Hbig : 3 < y2 - y1 \/ 3 < x2 - x1)
  (Hwind : winding_num hue ((x1, y1), (x2, y2)) = Ret 0)
  (Hread : forall p, edge_scanned ((x1, y1), (x2, y2)) p ->
                     exists v, getitem2 value (snd p) (fst p) = Ret v) :
  exists s',
    _calc_zeros (S fuel) hue value ((x1, y1), (x2, y2)) tol s = (Ret tt, s') /\
    winding_calls s' = winding_calls s ++ [((x1, y1), (x2, y2))] /\
    (forall p,
       p ∈ zero_index s' <->
       p ∈ zero_index s \/
       (edge_scanned ((x1, y1), (x2, y2)) p /\
        exists v, getitem2 value (snd p) (fst p) = Ret v /\ (v < tol)%Q)) /\
    ~ edge_scanned ((x1, y1), (x2, y2)) (x2, y2).
Proof.
  simpl _calc_zeros.
  replace ((y2 - y1 <=? 3) && (x2 - x1 <=? 3)) with false.
  2:{ symmetry. apply andb_false_iff. rewrite !Z.leb_gt. tauto. }
  unfold mbind at 1. unfold call_winding_num. rewrite Hwind. simpl Z.eqb.
  cbv iota.
  set (s1 := mk_cz_state (zero_index s)
                         (winding_calls s ++ [((x1, y1), (x2, y2))])).
  set (below := fun i j : Z =>
         exists v, getitem2 value j i = Ret v /\ (v < tol)%Q).
  assert (A : adds
    (for_each (zrange x1 x2) (fun i =>
       check_point value tol i y1 ;! check_point value tol i y2) ;!
     for_each (zrange y1 y2) (fun j =>
       check_point value tol x1 j ;! check_point value tol x2 j))
    (fun p => edge_scanned ((x1, y1), (x2, y2)) p /\
              below (fst p) (snd p))).
  { eapply adds_equiv.
    - apply adds_mbind.
      + apply adds_for_each with
          (F := fun i p => (p = (i, y1) /\ below i y1) \/
                           (p = (i, y2) /\ below i y2)).
        intros i Hi. apply elem_of_seqZ in Hi.
        apply adds_mbind; apply adds_check_point;
          [apply (Hread (i, y1))|apply (Hread (i, y2))]; simpl; left; lia.
      + apply adds_for_each with
          (F := fun j p => (p = (x1, j) /\ below x1 j) \/
                           (p = (x2, j) /\ below x2 j)).
        intros j Hj. apply elem_of_seqZ in Hj.
        apply adds_mbind; apply adds_check_point;
          [apply (Hread (x1, j))|apply (Hread (x2, j))]; simpl; right; lia.
    - intros [px py]. simpl. split.
      + intros [(i & Hi & [[Hp Hv]|[Hp Hv]])|(j & Hj & [[Hp Hv]|[Hp Hv]])];
          apply elem_of_seqZ in Hi || apply elem_of_seqZ in Hj;
          inversion Hp; subst; (split; [|exact Hv]);
          first [left; lia | right; lia].
      + intros [[[Hx [Hy|Hy]]|[Hy [Hx|Hx]]] Hv]; subst.
        * left. exists px. split; [apply elem_of_seqZ; lia|].
          left. split; [reflexivity|exact Hv].
        * left. exists px. split; [apply elem_of_seqZ; lia|].
          right. split; [reflexivity|exact Hv].
        * right. exists py. split; [apply elem_of_seqZ; lia|].
          left. split; [reflexivity|exact Hv].
        * right. exists py. split; [apply elem_of_seqZ; lia|].
          right. split; [reflexivity|exact Hv]. }
  destruct (A s1) as (s' & E & Hc & Hz).
  exists s'. split; [exact E|]. split; [exact Hc|]. split.
  - intros p. rewrite Hz. reflexivity.
  - simpl. lia.
Qed.

Lemma zero_winding_edge_scan_witness :
  exists s',
    _calc_zeros 1 flat5 dark_corners5 ((0, 0), (4, 4)) 0.01 empty_state
    = (Ret tt, s') /\
    winding_calls s' = winding_calls empty_state ++ [((0, 0), (4, 4))] /\
    (forall p,
       p ∈ zero_index s' <->
       p ∈ zero_index empty_state \/
       (edge_scanned ((0, 0), (4, 4)) p /\
        exists v, getitem2 dark_corners5 (snd p) (fst p) = Ret v /\
                  (v < 0.01)%Q)) /\
    ~ edge_scanned ((0, 0), (4, 4)) (4, 4).
Proof.
  apply (zero_winding_edge_scan flat5 dark_corners5 0.01 0 0 0 4 4
           empty_state).
  - left. lia.
  - vm_compute. reflexivity.
  - intros [px py] H. simpl in H.
    apply (getitem2_in_grid dark_corners5 py px).
    + repeat constructor.
    + simpl. lia.
    + simpl. lia.
Defined.

(** Of the four dark corners of [dark_corners5] the edge scan finds three. *)
Example edge_scan_misses_far_corner :
  exists zero_list index_list,
    zeros flat5 dark_corners5 (0, 4)%Q (0, 4)%Q None 0.01
    = Ret (zero_list, index_list) /\
    index_list ≡ₚ [(0, 0); (4, 0); (0, 4)].
Proof.
  eexists _, _. split; [vm_compute; reflexivity|].
  etransitivity; [apply perm_swap|]. apply perm_skip. apply perm_swap.
Qed.

(** X10.  [zeros] does not depend on which two opposite corners of the
    starting rectangle are given, nor on their order. *)
Theorem zeros_any_corners (hue value : grid) (re_range im_range : Q * Q)
  (tol : Q) (x1 y1 x2 y2 : Z) :
  zeros hue value re_range im_range (Some ((x2, y2), (x1, y1))) tol
  = zeros hue value re_range im_range (Some ((x1, y1), (x2, y2))) tol /\
  zeros hue value re_range im_range (Some ((x2, y1), (x1, y2))) tol
  = zeros hue value re_range im_range (Some ((x1, y1), (x2, y2))) tol /\
  zeros hue value re_range im_range (Some ((x1, y2), (x2, y1))) tol
  = zeros hue value re_range im_range (Some ((x1, y1), (x2, y2))) tol.
Proof.
  destruct (normalize_swap x1 y1 x2 y2) as (E1 & E2 & E3).
  unfold zeros, zeros_search, start_rect.
  destruct (shape hue) as [row col]. rewrite E1, E2, E3. repeat split.
Qed.

Lemma finds_no_more_mbind {A B} (m m' : M A) (k k' : A -> M B) :
  finds_no_more m m' -> (forall a, finds_no_more (k a) (k' a)) ->
  finds_no_more (mbind m k) (mbind m' k').
Proof.
  intros Hm Hk s s' Hz Hc. unfold mbind.
  destruct (Hm s s' Hz Hc) as (Ho & Hz1 & Hc1).
  destruct (m s) as [[a|e|] s1], (m' s') as [[a'|e'|] s1'];
    simpl in *; try discriminate; inversion Ho; subst.
  - apply Hk; assumption.
  - repeat split; assumption.
  - repeat split; assumption.
Qed.

Lemma finds_no_more_for_each l body body' :
  (forall i, finds_no_more (body i) (body' i)) ->
  finds_no_more (for_each l body) (for_each l body').
Proof.
  intros H. induction l as [|i l IH]; simpl.
  - intros s s' Hz Hc. repeat split; assumption.
  - apply finds_no_more_mbind; [apply H|]. intros _. exact IH.
Qed.

Lemma finds_no_more_check_point value tol tol' x y :
  (tol <= tol')%Q ->
  finds_no_more (check_point value tol x y) (check_point value tol' x y).
Proof.
  intros Ht s s' Hz Hc. unfold check_point, mbind, lift.
  destruct (getitem2 value y x) as [v| |]; simpl;
    try (repeat split; assumption).
  destruct (Qltb v tol) eqn:E1, (Qltb v tol') eqn:E2; simpl;
    repeat split; try assumption.
  - apply union_mono_l. exact Hz.
  - exfalso. apply Qltb_lt in E1. apply Qltb_ge in E2. lra.
  - apply union_subseteq_r'. exact Hz.
Qed.

Lemma finds_no_more_calc_zeros hue value tol tol' fuel :
  (tol <= tol')%Q ->
  forall r, finds_no_more (_calc_zeros fuel hue value r tol)
                          (_calc_zeros fuel hue value r tol').
Proof.
  intros Ht. induction fuel as [|fuel IH]; intros [[x1 y1] [x2 y2]].
  - intros s s' Hz Hc. repeat split; assumption.
  - simpl. destruct ((y2 - y1 <=? 3) && (x2 - x1 <=? 3)).
    + apply finds_no_more_for_each. intros i.
      apply finds_no_more_for_each. intros j.
      apply finds_no_more_check_point. exact Ht.
    + apply finds_no_more_mbind.
      * intros s s' Hz Hc. simpl. repeat split; [exact Hz|congruence].
      * intros w. destruct (w =? 0).
        -- apply finds_no_more_mbind; [|intros _];
             apply finds_no_more_for_each; intros i;
             (apply finds_no_more_mbind; [|intros _]);
             apply finds_no_more_check_point; exact Ht.
        -- destruct (y2 - y1 <? x2 - x1);
             (apply finds_no_more_mbind; [|intros _]); apply IH.
Qed.

(** X11.  Raising the tolerance never loses a zero: with [tol <= tol'] the
    search visits the same rectangles and ends the same way, and every index
    returned for [tol] is returned for [tol']. *)
Theorem zeros_monotone_in_tol (hue value : grid) (re_range im_range : Q * Q)
  (r : option rect) (tol tol' : Q)
  (Htol : (tol <= tol')%Q) :
  winding_calls (snd (zeros_search hue value r tol))
  = winding_calls (snd (zeros_search hue value r tol')) /\
  (forall e, zeros hue value re_range im_range r tol = Raise e ->
             zeros hue value re_range im_range r tol' = Raise e) /\
  (forall zero_list index_list,
     zeros hue value re_range im_range r tol = Ret (zero_list, index_list) ->
     exists zero_list' index_list',
       zeros hue value re_range im_range r tol'
       = Ret (zero_list', index_list') /\
       forall p, p ∈ index_list -> p ∈ index_list').
Proof.
  destruct (finds_no_more_calc_zeros hue value tol tol'
              (calc_fuel (start_rect hue r)) Htol (start_rect hue r)
              empty_state empty_state ltac:(set_solver) eq_refl)
    as (Ho & Hz & Hc).
  change (fst (zeros_search hue value r tol)
          = fst (zeros_search hue value r tol')) in Ho.
  change (zero_index (snd (zeros_search hue value r tol))
          ⊆ zero_index (snd (zeros_search hue value r tol'))) in Hz.
  change (winding_calls (snd (zeros_search hue value r tol))
          = winding_calls (snd (zeros_search hue value r tol'))) in Hc.
  split; [exact Hc|]. unfold zeros. destruct (shape hue) as [row col].
  destruct (zeros_search hue value r tol) as [[[]|e1|] s1],
           (zeros_search hue value r tol') as [[[]|e2|] s2];
    simpl in *; try discriminate.
  - destruct (row - 1 =? 0).
    + split; [intros e H; exact H|]. intros zl il H. discriminate.
    + split; [intros e H; discriminate|]. intros zl il H.
      inversion H; subst. eexists _, _. split; [reflexivity|].
      intros p Hp. apply elem_of_elements. apply elem_of_elements in Hp.
      set_solver.
  - inversion Ho; subst. split; [intros e H; exact H|].
    intros zl il H. discriminate.
  - split; [intros e H; discriminate|]. intros zl il H. discriminate.
Qed.

Lemma zeros_monotone_in_tol_witness :
  winding_calls (snd (zeros_search hue5 value5 None 0.01))
  = winding_calls (snd (zeros_search hue5 value5 None 0.55)) /\
  (forall e, zeros hue5 value5 (-2, 2)%Q (-2, 2)%Q None 0.01 = Raise e ->
             zeros hue5 value5 (-2, 2)%Q (-2, 2)%Q None 0.55 = Raise e) /\
  (forall zero_list index_list,
     zeros hue5 value5 (-2, 2)%Q (-2, 2)%Q None 0.01
     = Ret (zero_list, index_list) ->
     exists zero_list' index_list',
       zeros hue5 value5 (-2, 2)%Q (-2, 2)%Q None 0.55
       = Ret (zero_list', index_list') /\
       forall p, p ∈ index_list -> p ∈ index_list').
Proof.
  apply (zeros_monotone_in_tol hue5 value5 (-2, 2)%Q (-2, 2)%Q None 0.01 0.55).
  intros H. discriminate H.
Defined.

(** ** The bounding box of [zoom_fit_zero] *)

Lemma bounding_box_tight_aux (p0 : point) (rest : list point) :
  let '(x_max, x_min, y_max, y_min) := bounding_box p0 rest in
  (forall x, x ∈ read_xs p0 rest -> x_min <= x <= x_max) /\
  (forall y, y ∈ read_ys p0 rest -> y_min <= y <= y_max) /\
  x_max ∈ read_xs p0 rest /\ x_min ∈ read_xs p0 rest /\
  y_max ∈ read_ys p0 rest /\ y_min ∈ read_ys p0 rest.
Proof.
  unfold bounding_box, read_xs, read_ys.
  induction rest as [|p rest IH] using rev_ind.
  - simpl. split; [|split].
    + intros z Hz. apply list_elem_of_singleton in Hz. lia.
    + intros z Hz. apply list_elem_of_singleton in Hz. lia.
    + split; [|split; [|split]]; apply list_elem_of_singleton; reflexivity.
  - rewrite fold_left_app. simpl fold_left.
    destruct (fold_left bbox_step rest (p0.1, p0.1, p0.2, p0.2))
      as [[[x_max x_min] y_max] y_min].
    destruct IH as (Hx & Hy & Mx & mx & My & my).
    destruct p as [y x]. unfold bbox_step.
    rewrite !map_app. simpl map.
    assert (Ex : forall z, z ∈ p0.1 :: map snd rest ++ [x] <->
                           z ∈ p0.1 :: map snd rest \/ z = x).
    { intros z. rewrite !elem_of_cons, elem_of_app, list_elem_of_singleton.
      tauto. }
    assert (Ey : forall z, z ∈ p0.2 :: map fst rest ++ [y] <->
                           z ∈ p0.2 :: map fst rest \/ z = y).
    { intros z. rewrite !elem_of_cons, elem_of_app, list_elem_of_singleton.
      tauto. }
    assert (Hxx := Hx x_max Mx). assert (Hyy := Hy y_max My).
    destruct (Z.ltb_spec x_max x), (Z.ltb_spec x x_min),
             (Z.ltb_spec y_max y), (Z.ltb_spec y y_min);
      try lia;
      (split; [intros z Hz; apply Ex in Hz; destruct Hz as [Hz | ->];
               [specialize (Hx z Hz)|]; lia|]);
      (split; [intros z Hz; apply Ey in Hz; destruct Hz as [Hz | ->];
               [specialize (Hy z Hz)|]; lia|]);
      rewrite !Ex, !Ey; tauto.
Qed.


(** X12.  The box that [zoom_fit_zero] computes is the tight bounding box of
    the coordinates as it reads them, the first index as [(x, y)] and every
    later index as [(y, x)]: it contains all of them and each of its four
    bounds is one of them. *)
Theorem bounding_box_tight (p0 : point) (rest : list point) :
  let '(x_max, x_min, y_max, y_min) := bounding_box p0 rest in
  (forall x, x ∈ read_xs p0 rest -> x_min <= x <= x_max) /\
  (forall y, y ∈ read_ys p0 rest -> y_min <= y <= y_max) /\
  x_max ∈ read_xs p0 rest /\ x_min ∈ read_xs p0 rest /\
  y_max ∈ read_ys p0 rest /\ y_min ∈ read_ys p0 rest.
Proof. apply bounding_box_tight_aux. Qed.

(** ** [_brightness] *)

Lemma probe_move_walk_pos x_val max_val x y :
  probe_move x_val max_val x y = walk_pos x_val max_val x y 1.
Proof. unfold probe_move, walk_pos. destruct max_val, x_val; reflexivity. Qed.

Lemma brightness_loop_nonneg value light_val x_val max_val fuel :
  forall x y diff light d,
    _brightness_loop fuel value x y light_val x_val max_val diff light
    = Ret d ->
    forall j, 1 <= j <= d - diff ->
              0 <= fst (walk_pos x_val max_val x y j) /\
              0 <= snd (walk_pos x_val max_val x y j).
Proof.
  induction fuel as [|fuel IH]; intros x y diff light d; simpl.
  - destruct (Qltb light light_val); [discriminate|].
    intros H j Hj. inversion H; subst. lia.
  - destruct (Qltb light light_val).
    2:{ intros H j Hj. inversion H; subst. lia. }
    destruct (getitem2 value y x) as [l|e'|]; simpl; try discriminate.
    pose proof (walk_pos_S x_val max_val x y) as HS.
    pose proof (probe_move_walk_pos x_val max_val x y) as H1.
    destruct (probe_move x_val max_val x y) as [x' y'] eqn:Em. simpl in HS.
    destruct ((x' <? 0) || (y' <? 0)) eqn:Eneg; [discriminate|].
    apply orb_false_iff in Eneg. destruct Eneg as [Hx' Hy'].
    apply Z.ltb_ge in Hx'. apply Z.ltb_ge in Hy'.
    intros H j Hj. destruct (Z.eq_dec j 1) as [->|Hne].
    + rewrite <- H1. simpl. lia.
    + specialize (IH _ _ _ _ _ H (j - 1) ltac:(lia)).
      rewrite HS in IH. replace (j - 1 + 1) with j in IH by lia. exact IH.
Qed.

Lemma brightness_loop_reaching value light_val x_val max_val :
  forall (k : nat) fuel x y diff light,
    (k < fuel)%nat -> (light < light_val)%Q ->
    stops_after value x_val max_val x y light_val (Z.of_nat k + 1) ->
    _brightness_loop fuel value x y light_val x_val max_val diff light
    = Ret (diff + Z.of_nat k + 1).
Proof.
  induction k as [|k IH]; intros fuel x y diff light Hf Hl
    (_ & (v & Ev & Hv) & Hbefore & Hpos).
  - destruct fuel as [|fuel]; [lia|]. simpl.
    apply Qltb_lt in Hl. rewrite Hl.
    unfold sample_at in Ev. simpl in Ev. rewrite walk_pos_0 in Ev.
    simpl in Ev. rewrite Ev. simpl.
    destruct (Hpos 1 ltac:(lia)) as [Hx Hy].
    rewrite <- probe_move_walk_pos in Hx, Hy.
    destruct (probe_move x_val max_val x y) as [x' y']. simpl in Hx, Hy.
    replace ((x' <? 0) || (y' <? 0)) with false.
    2:{ symmetry. apply orb_false_iff. rewrite !Z.ltb_ge. lia. }
    assert (Hn : Qltb v light_val = false)
      by (apply Qltb_ge, Qnot_lt_le; exact Hv).
    replace (diff + Z.of_nat 0 + 1) with (diff + 1) by lia.
    destruct fuel; simpl; rewrite Hn; reflexivity.
  - destruct fuel as [|fuel]; [lia|]. simpl.
    apply Qltb_lt in Hl. rewrite Hl.
    destruct (Hbefore 0 ltac:(lia)) as (v0 & E0 & Hv0).
    unfold sample_at in E0. rewrite walk_pos_0 in E0. simpl in E0.
    rewrite E0. simpl.
    destruct (Hpos 1 ltac:(lia)) as [Hx Hy].
    rewrite <- probe_move_walk_pos in Hx, Hy.
    pose proof (walk_pos_S x_val max_val x y) as HS.
    destruct (probe_move x_val max_val x y) as [x' y']. simpl in Hx, Hy, HS.
    replace ((x' <? 0) || (y' <? 0)) with false.
    2:{ symmetry. apply orb_false_iff. rewrite !Z.ltb_ge. lia. }
    rewrite (IH fuel x' y' (diff + 1) v0 ltac:(lia) Hv0); [f_equal; lia|].
    split; [lia|]. unfold sample_at. split; [|split].
    + exists v. rewrite HS.
      replace (Z.of_nat k + 1 - 1 + 1) with (Z.of_nat (S k) + 1 - 1) by lia.
      split; assumption.
    + intros j Hj. destruct (Hbefore (j + 1) ltac:(lia)) as (w & Ew & Hw).
      exists w. rewrite HS. split; assumption.
    + intros j Hj. rewrite HS. apply Hpos. lia.
Qed.

(** X13.  For a positive threshold [_brightness] returns the count [d]
    exactly when the probe stops after [d] moves: sample [d - 1] on its way
    is the first that is not below [light_val], all samples before it
    could be read and are below, and no move led to a negative index.  It
    returns [None] exactly when there is no such [d]. *)
Theorem brightness_counts_to_first (value : grid) (x y : Z) (light_val : Q)
  (x_val max_val : bool) (d : Z)
  (Hlight : (0 < light_val)%Q) :
  (_brightness value x y light_val x_val max_val = Ret (Some d) <->
   stops_after value x_val max_val x y light_val d) /\
  (_brightness value x y light_val x_val max_val = Ret None <->
   forall d', ~ stops_after value x_val max_val x y light_val d').
Proof.
  assert (Hfwd : forall d0,
    _brightness value x y light_val x_val max_val = Ret (Some d0) ->
    stops_after value x_val max_val x y light_val d0).
  { intros d0 H.
    destruct (brightness_Some_first _ _ _ _ _ _ _ Hlight H)
      as (Hd & _ & Hstop & Hbefore).
    split; [exact Hd|]. split; [|split; [exact Hbefore|]].
    { destruct Hstop as (v & Ev & Hv). exists v.
      split; [exact Ev|]. apply Qle_not_lt. exact Hv. }
    unfold _brightness in H.
    destruct (_brightness_loop _ _ _ _ _ _ _ _ _) as [d'|e|] eqn:E;
      try discriminate.
    2:{ destruct e; discriminate. }
    inversion H; subst d'. intros j Hj.
    apply (brightness_loop_nonneg _ _ _ _ _ _ _ _ _ _ E). lia. }
  assert (Hbwd : forall d0,
    stops_after value x_val max_val x y light_val d0 ->
    _brightness value x y light_val x_val max_val = Ret (Some d0)).
  { intros d0 Hs. pose proof Hs as (Hd & (v & Ev & _) & _ & Hpos).
    unfold _brightness.
    rewrite (brightness_loop_reaching value light_val x_val max_val
               (Z.to_nat (d0 - 1)) _ x y 0 0%Q).
    - f_equal. f_equal. lia.
    - unfold brightness_fuel.
      unfold sample_at in Ev. apply getitem2_Ret_lt in Ev.
      destruct (Hpos d0 ltac:(lia)) as [Hx Hy].
      unfold walk_pos in *. destruct max_val, x_val; simpl in *; lia.
    - exact Hlight.
    - replace (Z.of_nat (Z.to_nat (d0 - 1)) + 1) with d0 by lia. exact Hs. }
  split; [split; [apply Hfwd|apply Hbwd]|]. split.
  - intros H d' Hs. apply Hbwd in Hs. congruence.
  - intros H.
    destruct (brightness_returns value x y light_val x_val max_val)
      as [[d'|] E]; [|exact E].
    exfalso. exact (H d' (Hfwd d' E)).
Qed.

Lemma brightness_counts_to_first_witness :
  (_brightness light4 2 2 0.95 true true = Ret (Some 2) <->
   stops_after light4 true true 2 2 0.95 2) /\
  (_brightness light4 2 2 0.95 true true = Ret None <->
   forall d', ~ stops_after light4 true true 2 2 0.95 d').
Proof.
  apply (brightness_counts_to_first light4 2 2 0.95 true true 2).
  reflexivity.
Defined.

(** X14.  [_brightness] lets no exception escape: it returns a count or
    [None].  For a threshold that is not positive it returns 0 without
    reading the array at all. *)
Theorem brightness_never_raises (value : grid) (x y : Z) (light_val : Q)
  (x_val max_val : bool) :
  (exists o, _brightness value x y light_val x_val max_val = Ret o) /\
  ((light_val <= 0)%Q ->
   forall value', _brightness value' x y light_val x_val max_val
                  = Ret (Some 0)).
Proof.
  split; [apply brightness_returns|].
  intros Hl value'. unfold _brightness, brightness_fuel. simpl.
  assert (E : Qltb 0 light_val = false) by (apply Qltb_ge; exact Hl).
  rewrite E. reflexivity.
Qed.

Lemma brightness_never_raises_witness :
  (exists o, _brightness [] 3 4 0 true false = Ret o) /\
  forall value', _brightness value' 3 4 0 true false = Ret (Some 0).
Proof.
  destruct (brightness_never_raises [] 3 4 0 true false) as [H1 H2].
  split; [exact H1|]. apply H2. intros H. discriminate H.
Defined.

(** ** Errors and results of [zoom_fit_zero] *)

Lemma py_div_raises a b e : py_div a b = Raise e -> e = ZeroDivisionError /\ (b == 0)%Q.
Proof.
  unfold py_div. destruct (Qeq_bool b 0) eqn:E; [|discriminate].
  intros H. inversion H. split; [reflexivity|]. apply Qeq_bool_iff. exact E.
Qed.






Example zoom_fit_zero_zero_step :
  zoom_fit_zero [(2, 2)] light4 (0, 3)%Q (0, 3)%Q 0 0.95
  = Raise ZeroDivisionError.
Proof. vm_compute. reflexivity. Qed.




(** ** What [branch_cut] reports *)





Lemma axis_inside_true range :
  Qltb (fst range) 0 && Qltb 0 (snd range) = true <-> axis_inside range.
Proof.
  unfold axis_inside. rewrite andb_true_iff, !Qltb_lt. reflexivity.
Qed.




(** X18.  With a zero step and an axis inside its range [branch_cut] raises
    [OverflowError]: the index of the axis cannot be computed. *)
Theorem branch_cut_zero_step (hue value : grid) (re_range im_range : Q * Q)
  (step : Q)
  (Hstep : (step == 0)%Q)
  (Haxis : axis_inside im_range \/ axis_inside re_range) :
  branch_cut hue value re_range im_range step = Raise OverflowError.
Proof.
  unfold branch_cut. destruct (shape hue) as [row col].
  assert (Ha : forall lo, axis_index lo step = Raise OverflowError).
  { intros lo. unfold axis_index. apply Qeq_bool_iff in Hstep.
    rewrite Hstep. reflexivity. }
  pose proof (axis_inside_true im_range) as Are.
  pose proof (axis_inside_true re_range) as Aim.
  destruct (Qltb (fst im_range) 0 && Qltb 0 (snd im_range)) eqn:Ere.
  - cbn [orb negb]. rewrite Ha. reflexivity.
  - destruct (Qltb (fst re_range) 0 && Qltb 0 (snd re_range)) eqn:Eim.
    + cbn [orb negb obind]. rewrite Ha. reflexivity.
    + exfalso. destruct Haxis as [H|H].
      * apply Are in H. discriminate.
      * apply Aim in H. discriminate.
Qed.

Lemma branch_cut_zero_step_witness :
  branch_cut hue5 value5 (-2, 2)%Q (1, 2)%Q 0 = Raise OverflowError.
Proof.
  apply (branch_cut_zero_step hue5 value5 (-2, 2)%Q (1, 2)%Q 0).
  - reflexivity.
  - right. split; reflexivity.
Defined.

(** ** Bisection and the winding number *)

Lemma wrap_count_antisymmetric a b : wrap_count a b = - wrap_count b a.
Proof.
  unfold wrap_count, lim1_w, lim2_w.
  destruct (Qgtb b 0.7) eqn:E1, (Qltb a 0.3) eqn:E2,
           (Qltb b 0.3) eqn:E3, (Qgtb a 0.7) eqn:E4;
    simpl; try reflexivity; exfalso; to_Qprop; lra.
Qed.

Lemma sum_over_app l l' f :
  sum_over (l ++ l') f = sum_over l f + sum_over l' f.
Proof.
  induction l as [|i l IH]; simpl; [reflexivity|]. rewrite IH. lia.
Qed.

Lemma sum_over_split a m b f :
  a <= m <= b ->
  sum_over (zrange a b) f = sum_over (zrange a m) f + sum_over (zrange m b) f.
Proof.
  intros H. unfold zrange.
  replace (b - a) with ((m - a) + (b - m)) by lia.
  rewrite seqZ_app by lia. rewrite sum_over_app.
  replace (a + (m - a)) with m by lia. reflexivity.
Qed.

Lemma sum_over_add l f g h :
  (forall i, i ∈ l -> h i = f i + g i) ->
  sum_over l h = sum_over l f + sum_over l g.
Proof.
  induction l as [|i l IH]; intros H; simpl; [reflexivity|].
  rewrite (H i ltac:(left)), IH; [lia|].
  intros j Hj. apply H. right. exact Hj.
Qed.

Lemma boundary_wraps_split_x hue x1 y1 x2 y2 m :
  x1 <= m <= x2 ->
  boundary_wraps hue ((x1, y1), (x2, y2))
  = boundary_wraps hue ((x1, y1), (m, y2))
    + boundary_wraps hue ((m, y1), (x2, y2)).
Proof.
  intros H. unfold boundary_wraps.
  rewrite (sum_over_split x1 m x2) by exact H.
  rewrite (sum_over_add (zrange y1 y2) (col_wraps hue x1 m)
             (col_wraps hue m x2) (col_wraps hue x1 x2)); [lia|].
  intros j _. unfold col_wraps.
  rewrite (wrap_count_antisymmetric (hue_at hue (j + 1) m) (hue_at hue j m)).
  lia.
Qed.

Lemma boundary_wraps_split_y hue x1 y1 x2 y2 m :
  y1 <= m <= y2 ->
  boundary_wraps hue ((x1, y1), (x2, y2))
  = boundary_wraps hue ((x1, y1), (x2, m))
    + boundary_wraps hue ((x1, m), (x2, y2)).
Proof.
  intros H. unfold boundary_wraps.
  rewrite (sum_over_split y1 m y2) by exact H.
  rewrite (sum_over_add (zrange x1 x2) (row_wraps hue y1 m)
             (row_wraps hue m y2) (row_wraps hue y1 y2)); [lia|].
  intros i _. unfold row_wraps.
  rewrite (wrap_count_antisymmetric (hue_at hue m i) (hue_at hue m (i + 1))).
  lia.
Qed.

(** X19.  In exact arithmetic the winding number is additive under the
    bisection of [_calc_zeros]: on a rectangle inside the array it is the
    sum of the winding numbers of the two halves, for a cut along any column
    or row of the rectangle, because the shared edge is walked once in each
    direction. *)
Theorem winding_num_additive (hue : grid) (x1 y1 x2 y2 m : Z)
  (Hrect : rectangular hue)
  (Hin : in_grid (shape hue) ((x1, y1), (x2, y2))) :
  (x1 <= m <= x2 ->
   exists w wl wr,
     winding_num hue ((x1, y1), (x2, y2)) = Ret w /\
     winding_num hue ((x1, y1), (m, y2)) = Ret wl /\
     winding_num hue ((m, y1), (x2, y2)) = Ret wr /\
     w = wl + wr) /\
  (y1 <= m <= y2 ->
   exists w wt wb,
     winding_num hue ((x1, y1), (x2, y2)) = Ret w /\
     winding_num hue ((x1, y1), (x2, m)) = Ret wt /\
     winding_num hue ((x1, m), (x2, y2)) = Ret wb /\
     w = wt + wb).
Proof.
  destruct Hin as (Hx1 & Hx2 & Hy1 & Hy2). split; intros Hm.
  - exists (boundary_wraps hue ((x1, y1), (x2, y2))),
           (boundary_wraps hue ((x1, y1), (m, y2))),
           (boundary_wraps hue ((m, y1), (x2, y2))).
    repeat split;
      try (apply winding_num_counts_wraps_aux;
           [exact Hrect|unfold in_grid; cbn [fst snd]; lia]).
    apply boundary_wraps_split_x. exact Hm.
  - exists (boundary_wraps hue ((x1, y1), (x2, y2))),
           (boundary_wraps hue ((x1, y1), (x2, m))),
           (boundary_wraps hue ((x1, m), (x2, y2))).
    repeat split;
      try (apply winding_num_counts_wraps_aux;
           [exact Hrect|unfold in_grid; cbn [fst snd]; lia]).
    apply boundary_wraps_split_y. exact Hm.
Qed.

Lemma winding_num_additive_witness :
  (exists w wl wr,
     winding_num hue5 ((0, 0), (4, 4)) = Ret w /\
     winding_num hue5 ((0, 0), (2, 4)) = Ret wl /\
     winding_num hue5 ((2, 0), (4, 4)) = Ret wr /\
     w = wl + wr) /\
  (exists w wt wb,
     winding_num hue5 ((0, 0), (4, 4)) = Ret w /\
     winding_num hue5 ((0, 0), (4, 2)) = Ret wt /\
     winding_num hue5 ((0, 2), (4, 4)) = Ret wb /\
     w = wt + wb).
Proof.
  assert (Hr : rectangular hue5) by repeat constructor.
  assert (Hi : in_grid (shape hue5) ((0, 0), (4, 4))) by (simpl; lia).
  split.
  - apply (proj1 (winding_num_additive hue5 0 0 4 4 2 Hr Hi)). lia.
  - apply (proj2 (winding_num_additive hue5 0 0 4 4 2 Hr Hi)). lia.
Defined.
